(** * yt_summary: the chunking and map-reduce summarization pipeline

    A shallow embedding of [src/utils/text_processing.py],
    [src/agents/chunking_agent.py], [src/agents/summarization_agent.py],
    [src/agents/synthesis_agent.py] and the provider interface of
    [src/providers/base_provider.py], with the properties of the design
    specification stated and settled on it.

    Conventions of the embedding:
    - a Python [str] is a list of characters; a character is a code point
      below 256 (Rocq's [ascii]), so every text of the Latin-1 range is
      covered, with Python's own whitespace and digit classes on that range;
    - a Python [int] is a [Z]; [len] is [Z.of_nat (length _)];
    - slices and [rfind] take Python's index adjustment (negative indices
      count from the end, everything is clipped to the length);
    - the [while] loop of the splitter takes fuel: [None] is "no result
      within that many iterations", and the loop is shown to end, or never
      to end, where a property depends on it;
    - the language-model provider is an object with hidden state, so its
      [generate] maps a state to an outcome and a new state; the outcome
      is a returned text or a raised exception. *)

From Stdlib Require Import ZArith QArith Ascii String List Lia Bool DecimalString.
From stdpp Require Import base list strings gmap.

Import ListNotations.
Local Open Scope Z_scope.
Local Open Scope list_scope.

(** ** Texts *)

Abbreviation str := (list ascii).

(** A string literal of the source, as a text. *)
Definition lit (s : string) : str := list_ascii_of_string s.

Definition len (s : str) : Z := Z.of_nat (length s).

Definition chr (n : nat) : ascii := ascii_of_nat n.
Definition ord (c : ascii) : nat := nat_of_ascii c.

(** [in_range lo hi c]: lo <= ord(c) <= hi. *)
Definition in_range (lo hi : nat) (c : ascii) : bool :=
  (lo <=? ord c)%nat && (ord c <=? hi)%nat.

(** Python's whitespace class on code points below 256: [str.isspace],
    the characters [str.strip()] removes and the class [\s] of [re] on
    [str] patterns all agree on it: U+0009..U+000D, U+001C..U+001F,
    U+0020, U+0085 and U+00A0. *)
Definition is_space (c : ascii) : bool :=
  in_range 9 13 c || in_range 28 32 c || (ord c =? 133)%nat || (ord c =? 160)%nat.

(** The class [\d] on code points below 256: the decimal digits 0..9. *)
Definition is_digit (c : ascii) : bool := in_range 48 57 c.

Definition is_char (a : ascii) (c : ascii) : bool := Ascii.eqb c a.

Definition newline : ascii := chr 10.
Definition space : ascii := chr 32.

(** [str.strip()] with no argument. *)
Fixpoint lstrip (s : str) : str :=
  match s with
  | c :: s' => if is_space c then lstrip s' else s
  | [] => []
  end.

Definition rstrip (s : str) : str := rev (lstrip (rev s)).

Definition strip (s : str) : str := rstrip (lstrip s).

(** Python's adjustment of a slice index against a length. *)
Definition adjust_index (n i : Z) : Z :=
  if i <? 0 then Z.max 0 (i + n) else Z.min i n.

(** [s[i:j]] *)
Definition slice (s : str) (i j : Z) : str :=
  let a := adjust_index (len s) i in
  let b := adjust_index (len s) j in
  take (Z.to_nat (b - a)) (drop (Z.to_nat a) s).

Fixpoint starts_with (sub s : str) : bool :=
  match sub, s with
  | [] , _ => true
  | a :: sub', c :: s' => Ascii.eqb a c && starts_with sub' s'
  | _ :: _, [] => false
  end.

(** The highest index [i] with [lo <= i] and [i + len(sub) <= hi] at which
    [sub] occurs in [s], scanning [s] from the left with [i] the index of
    its head; [best] is the answer so far. *)
Fixpoint rfind_from (sub s : str) (i lo hi best : Z) : Z :=
  match s with
  | [] => if (lo <=? i) && (i + len sub <=? hi) && starts_with sub [] then i else best
  | c :: s' =>
      let best' :=
        if (lo <=? i) && (i + len sub <=? hi) && starts_with sub s then i else best in
      rfind_from sub s' (i + 1) lo hi best'
  end.

(** [s.rfind(sub, start, end)]: -1 when there is no occurrence. *)
Definition rfind (s sub : str) (start end_ : Z) : Z :=
  let a := adjust_index (len s) start in
  let b := adjust_index (len s) end_ in
  rfind_from sub s 0 a b (-1).

(** [sep.join(parts)] *)
Fixpoint join (sep : str) (parts : list str) : str :=
  match parts with
  | [] => []
  | [p] => p
  | p :: rest => p ++ sep ++ join sep rest
  end.

(** [sub in s] *)
Definition contains (sub s : str) : Prop :=
  exists pre post, s = pre ++ sub ++ post.

(** [s.startswith(sub)] *)
Definition begins_with (sub s : str) : Prop :=
  exists post, s = sub ++ post.

(** ** The fragment of [re] the three patterns of the source use *)

Module Re.

(** Patterns: a character class, concatenation, a greedy optional, a greedy
    star of a class, and a capturing group. [\s+] is a class followed by
    its star, [\d{1,2}] a digit followed by an optional digit. *)
Inductive regex : Type :=
| Cls (p : ascii -> bool)
| Cat (r1 r2 : regex)
| Opt (r : regex)
| Star (p : ascii -> bool)
| Group (r : regex).

(** What a match leaves: the rest of the subject and the texts of the
    groups closed so far. *)
Definition state : Type := str * list str.

(** Greedy star of a class with backtracking: the longest run first, then
    shorter ones until the continuation accepts. *)
Fixpoint star (p : ascii -> bool) (s : str) (k : str -> option state)
  : option state :=
  match s with
  | c :: s' =>
      if p c then
        match star p s' k with
        | Some x => Some x
        | None => k s
        end
      else k s
  | [] => k []
  end.

(** What has been read between a subject [s] and the rest [s'] of it. *)
Definition consumed (s s' : str) : str := take (length s - length s') s.

(** The backtracking matcher in continuation-passing style: [run r s caps k]
    matches [r] at the head of [s] and hands the rest to [k]; the first
    alternative, in the priority order of [re], that [k] accepts wins. *)
Fixpoint run (r : regex) (s : str) (caps : list str)
  (k : str -> list str -> option state) : option state :=
  match r with
  | Cls p =>
      match s with
      | c :: s' => if p c then k s' caps else None
      | [] => None
      end
  | Cat r1 r2 => run r1 s caps (fun s' caps' => run r2 s' caps' k)
  | Opt r1 =>
      match run r1 s caps k with
      | Some x => Some x
      | None => k s caps
      end
  | Star p => star p s (fun s' => k s' caps)
  | Group r1 =>
      run r1 s caps (fun s' caps' => k s' (caps' ++ [consumed s s']))
  end.

(** [pattern.match(s)] at the head of [s]: the rest after the match and
    the groups. *)
Definition match_at (r : regex) (s : str) : option state :=
  run r s [] (fun s' caps => Some (s', caps)).

(** [re.sub(r, repl, s)] for a literal replacement: the subject is scanned
    from the left, each match is replaced and the scan resumes after it.
    [skip] counts the characters of the last match still to pass. None of
    the patterns of the source matches the empty string
    ([match_at_consumes] below), so the rules of [re] for empty matches
    never apply and a match of length 0 is taken as no match. *)
Fixpoint sub_from (r : regex) (repl : str) (s : str) (skip : nat) : str :=
  match s with
  | [] => []
  | c :: s' =>
      match skip with
      | S n => sub_from r repl s' n
      | O =>
          match match_at r s with
          | Some (rest, _) =>
              match (length s - length rest)%nat with
              | S n => repl ++ sub_from r repl s' n
              | O => c :: sub_from r repl s' 0
              end
          | None => c :: sub_from r repl s' 0
          end
      end
  end.

Definition sub (r : regex) (repl s : str) : str := sub_from r repl s 0.

(** [re.findall(r, s)] for a pattern with exactly one group: the text of
    that group for each match, left to right. *)
Fixpoint findall_from (r : regex) (s : str) (skip : nat) : list str :=
  match s with
  | [] => []
  | c :: s' =>
      match skip with
      | S n => findall_from r s' n
      | O =>
          match match_at r s with
          | Some (rest, caps) =>
              match (length s - length rest)%nat with
              | S n => hd [] caps :: findall_from r s' n
              | O => findall_from r s' 0
              end
          | None => findall_from r s' 0
          end
      end
  end.

Definition findall (r : regex) (s : str) : list str := findall_from r s 0.

(** Can the pattern match the empty string? *)
Fixpoint nullable (r : regex) : bool :=
  match r with
  | Cls _ => false
  | Cat r1 r2 => nullable r1 && nullable r2
  | Opt _ => true
  | Star _ => true
  | Group r1 => nullable r1
  end.

(** Does the pattern have a capturing group? *)
Fixpoint has_group (r : regex) : bool :=
  match r with
  | Cls _ => false
  | Cat r1 r2 => has_group r1 || has_group r2
  | Opt r1 => has_group r1
  | Star _ => false
  | Group _ => true
  end.

(** The texts a pattern matches. *)
Inductive matches : regex -> str -> Prop :=
| matches_cls p c : p c = true -> matches (Cls p) [c]
| matches_cat r1 r2 a b : matches r1 a -> matches r2 b -> matches (Cat r1 r2) (a ++ b)
| matches_opt_some r a : matches r a -> matches (Opt r) a
| matches_opt_none r : matches (Opt r) []
| matches_star p a : forallb p a = true -> matches (Star p) a
| matches_group r a : matches r a -> matches (Group r) a.

End Re.

(** ** [TextProcessor] *)

Module TextProcessor.
Import Re.

(** [r'\s+'] *)
Definition ws_run : regex := Cat (Cls is_space) (Star is_space).

(** [r'\n\s*\n'] *)
Definition blank_line : regex :=
  Cat (Cls (is_char newline)) (Cat (Star is_space) (Cls (is_char newline))).

Definition clean_text (text : str) : str :=
  (* Remove extra whitespace *)
  let text1 := Re.sub ws_run [space] text in
  (* Remove multiple newlines *)
  let text2 := Re.sub blank_line [newline] text1 in
  strip text2.

(** The body of the [while] loop of [split_into_chunks]: from the cursor
    [start] and the chunks so far to the next cursor and chunks. *)
Definition split_step (text : str) (max_chunk_size overlap : Z)
  (start : Z) (chunks : list str) : Z * list str :=
  let end0 := start + max_chunk_size in
  let end_ :=
    (* If not the last chunk, try to break at sentence boundary *)
    if end0 <? len text then
      (* Look for sentence endings within last 200 chars of chunk *)
      let search_start := Z.max (end0 - 200) start in
      let sentence_end :=
        Z.max (Z.max (rfind text (lit ". ") search_start end0)
                     (rfind text (lit "! ") search_start end0))
              (rfind text (lit "? ") search_start end0) in
      if sentence_end >? start then sentence_end + 1 else end0
    else end0 in
  let chunk := strip (slice text start end_) in
  let chunks' :=
    match chunk with
    | [] => chunks
    | _ :: _ => chunks ++ [chunk]
    end in
  (* Move start position with overlap *)
  let start' := if end_ <? len text then end_ - overlap else len text in
  (start', chunks').

(** [while start < len(text): ...], at most [fuel] iterations. *)
Fixpoint split_loop (fuel : nat) (text : str) (max_chunk_size overlap : Z)
  (start : Z) (chunks : list str) : option (list str) :=
  if start <? len text then
    match fuel with
    | O => None
    | S fuel' =>
        let '(start', chunks') :=
          split_step text max_chunk_size overlap start chunks in
        split_loop fuel' text max_chunk_size overlap start' chunks'
    end
  else Some chunks.

Definition split_into_chunks (fuel : nat) (text : str)
  (max_chunk_size overlap : Z) : option (list str) :=
  if len text <=? max_chunk_size then Some [text]
  else split_loop fuel text max_chunk_size overlap 0 [].

Definition open_bracket (c : ascii) : bool :=
  is_char (chr 91) c || is_char (chr 40) c.

Definition close_bracket (c : ascii) : bool :=
  is_char (chr 93) c || is_char (chr 41) c.

Definition colon : ascii := chr 58.

(** [\d{2}] *)
Definition two_digits : regex := Cat (Cls is_digit) (Cls is_digit).

(** The group of the pattern: [\d{1,2}:\d{2}(?::\d{2})?] *)
Definition timestamp_token : regex :=
  Cat (Cat (Cls is_digit) (Opt (Cls is_digit)))
    (Cat (Cls (is_char colon))
       (Cat two_digits
          (Opt (Cat (Cls (is_char colon)) two_digits)))).

(** [r'[\[\(]?(\d{1,2}:\d{2}(?::\d{2})?)[\]\)]?'] *)
Definition timestamp_pattern : regex :=
  Cat (Opt (Cls open_bracket))
    (Cat (Group timestamp_token) (Opt (Cls close_bracket))).

(** Match timestamps like [00:00], [00:00:00], (00:00), etc. *)
Definition extract_timestamps (text : str) : list str :=
  Re.findall timestamp_pattern text.

(** [str(n)] for an [int]. *)
Definition str_of_int (n : Z) : str := lit (NilZero.string_of_int (Z.to_int n)).

(** [f"{n:02d}"]: the decimal text of [n], filled with zeros to two
    characters (a sign counts as one, so only 0..9 are filled). *)
Definition format_02d (n : Z) : str :=
  let s := str_of_int n in
  if (length s <? 2)%nat then chr 48 :: s else s.

(** [format_duration], for an [int] number of seconds: [//] and [%] are the
    floor division and its remainder, and [int(_)] changes nothing. *)
Definition format_duration (seconds : Z) : str :=
  let hours := seconds / 3600 in
  let minutes := (seconds mod 3600) / 60 in
  let secs := seconds mod 60 in
  if hours >? 0 then
    format_02d hours ++ lit ":" ++ format_02d minutes ++ lit ":" ++ format_02d secs
  else
    format_02d minutes ++ lit ":" ++ format_02d secs.

End TextProcessor.

(** ** The records passed between the stages *)

(** The chunk dictionary of [chunk_transcript]: its five keys are fixed. *)
Module Chunk.
Record t : Type := mk {
  chunk_id : Z;
  text : str;
  start_timestamp : str;
  end_timestamp : str;
  char_count : Z
}.
End Chunk.

(** The summary dictionary of [summarize_chunk]. *)
Module ChunkSummary.
Record t : Type := mk {
  chunk_id : Z;
  start_timestamp : str;
  end_timestamp : str;
  summary : str;
  success : bool
}.
End ChunkSummary.

(** The statistics dictionary of [get_chunk_summary]. *)
Module ChunkStats.
Record t : Type := mk {
  total_chunks : Z;
  total_characters : Z;
  avg_chunk_size : Z;
  first_timestamp : str;
  last_timestamp : str
}.
End ChunkStats.

(** The result dictionary of [create_structured_summary]; the values taken
    from the metadata are kept as their text. *)
Module SynthesisResult.
Record t : Type := mk {
  video_url : str;
  video_id : str;
  duration : str;
  summary : str;
  chunk_count : Z;
  successful_chunks : Z
}.
End SynthesisResult.

(** ** [ChunkingAgent] *)

Module ChunkingAgent.
Import TextProcessor.

Record t : Type := mk {
  max_chunk_size : Z;
  overlap : Z
}.

(** [__init__]: the two sizes are stored as given. *)
Definition init (max_chunk_size overlap : Z) : t :=
  {| max_chunk_size := max_chunk_size; overlap := overlap |}.

(** [ChunkingAgent()] with the default arguments. *)
Definition default : t := init 4000 200.

(** [timestamps[0] if timestamps else "00:00"] *)
Definition first_or_sentinel (timestamps : list str) : str :=
  match timestamps with
  | [] => lit "00:00"
  | t0 :: _ => t0
  end.

(** [timestamps[-1] if timestamps else "00:00"] *)
Definition last_or_sentinel (timestamps : list str) : str :=
  List.last timestamps (lit "00:00").

(** The dictionary built for the chunk at index [idx] of the enumeration. *)
Definition with_metadata (idx : Z) (chunk_text : str) : Chunk.t :=
  (* Extract timestamps from this chunk *)
  let timestamps := extract_timestamps chunk_text in
  let start_timestamp := first_or_sentinel timestamps in
  let end_timestamp := last_or_sentinel timestamps in
  {| Chunk.chunk_id := idx + 1;
     Chunk.text := chunk_text;
     Chunk.start_timestamp := start_timestamp;
     Chunk.end_timestamp := end_timestamp;
     Chunk.char_count := len chunk_text |}.

(** [for idx, chunk_text in enumerate(chunks): chunk_data.append(...)] *)
Fixpoint add_metadata (idx : Z) (chunks : list str) (chunk_data : list Chunk.t)
  : list Chunk.t :=
  match chunks with
  | [] => chunk_data
  | chunk_text :: rest =>
      add_metadata (idx + 1) rest (chunk_data ++ [with_metadata idx chunk_text])
  end.

Definition chunk_transcript (fuel : nat) (self : t) (transcript : str)
  : option (list Chunk.t) :=
  (* Clean the transcript *)
  let cleaned_text := clean_text transcript in
  (* Split into chunks *)
  match split_into_chunks fuel cleaned_text
          (max_chunk_size self) (overlap self) with
  | Some chunks =>
      (* Add metadata to each chunk *)
      Some (add_metadata 0 chunks [])
  | None => None
  end.

(** [sum(chunk['char_count'] for chunk in chunks)] *)
Definition sum_char_count (chunks : list Chunk.t) : Z :=
  fold_left (fun total chunk => total + Chunk.char_count chunk) chunks 0.

Definition get_chunk_summary (chunks : list Chunk.t) : ChunkStats.t :=
  let total_chars := sum_char_count chunks in
  {| ChunkStats.total_chunks := Z.of_nat (length chunks);
     ChunkStats.total_characters := total_chars;
     ChunkStats.avg_chunk_size :=
       match chunks with
       | [] => 0
       | _ :: _ => total_chars / Z.of_nat (length chunks)
       end;
     ChunkStats.first_timestamp :=
       match chunks with
       | [] => lit "00:00"
       | chunk0 :: _ => Chunk.start_timestamp chunk0
       end;
     ChunkStats.last_timestamp :=
       match chunks with
       | [] => lit "00:00"
       | chunk0 :: rest => Chunk.end_timestamp (List.last rest chunk0)
       end |}.

End ChunkingAgent.

(** ** The provider interface ([BaseLLMProvider]) *)

(** An exception object, an instance of [Exception], which is what the
    [except Exception] clauses of the agents catch; [str(e)] is its message. *)
Inductive exception : Type := Exception (message : str).

Definition str_of (e : exception) : str :=
  match e with Exception message => message end.

(** What a call that may raise produces. *)
Inductive outcome (A : Type) : Type :=
| Returned (a : A)
| Raised (e : exception).
Arguments Returned {A} a.
Arguments Raised {A} e.

(** The two abstract methods. A provider talks to a server, so a call
    depends on, and changes, a state [P] the pipeline does not see:
    [generate p prompt system_prompt temperature max_tokens]. *)
Class BaseLLMProvider (P : Type) : Type := {
  generate : P -> str -> option str -> Q -> option Z -> outcome str * P;
  is_available : P -> bool * P
}.

(** Computations that use the provider. *)
Definition Gen (P A : Type) : Type := P -> A * P.

Definition ret {P A : Type} (a : A) : Gen P A := fun p => (a, p).

Definition bind {P A B : Type} (m : Gen P A) (f : A -> Gen P B) : Gen P B :=
  fun p => let (a, p') := m p in f a p'.

Notation "'let!' x ':=' m 'in' k" := (bind m (fun x => k))
  (at level 10, x name, m at level 100, k at level 200).

(** ** [SummarizationAgent] *)

Module SummarizationAgent.
Section WithProvider.
Context {P : Type} `{BaseLLMProvider P}.

Definition system_prompt : str := lit
"You are an expert at summarizing video content. 
Your task is to create a concise but comprehensive summary of the video transcript chunk provided.

Instructions:
- Extract the main topics and key points discussed
- Maintain chronological order
- Preserve important details and context
- Use clear, professional language
- If timestamps are present, note the time range covered".

Definition user_prompt (chunk : Chunk.t) : str :=
  lit "Summarize this video transcript chunk:

Time Range: " ++ Chunk.start_timestamp chunk ++ lit " - " ++ Chunk.end_timestamp chunk ++ lit "

Transcript:
" ++ Chunk.text chunk ++ lit "

Provide a clear summary highlighting the main topics and key points.".

(** The one call of [summarize_chunk] to the provider. *)
Definition call (chunk : Chunk.t) : Gen P (outcome str) :=
  fun p => generate p (user_prompt chunk) (Some system_prompt) (3 # 10)%Q (Some 500).

Definition summarize_chunk (chunk : Chunk.t) : Gen P ChunkSummary.t :=
  let! r := call chunk in
  match r with
  | Returned summary =>
      ret {| ChunkSummary.chunk_id := Chunk.chunk_id chunk;
             ChunkSummary.start_timestamp := Chunk.start_timestamp chunk;
             ChunkSummary.end_timestamp := Chunk.end_timestamp chunk;
             ChunkSummary.summary := strip summary;
             ChunkSummary.success := true |}
  | Raised e =>
      ret {| ChunkSummary.chunk_id := Chunk.chunk_id chunk;
             ChunkSummary.start_timestamp := Chunk.start_timestamp chunk;
             ChunkSummary.end_timestamp := Chunk.end_timestamp chunk;
             ChunkSummary.summary := lit "Error: " ++ str_of e;
             ChunkSummary.success := false |}
  end.

(** [for chunk in chunks: summaries.append(self.summarize_chunk(chunk))] *)
Fixpoint for_chunks (chunks : list Chunk.t) (summaries : list ChunkSummary.t)
  : Gen P (list ChunkSummary.t) :=
  match chunks with
  | [] => ret summaries
  | chunk :: rest =>
      let! summary := summarize_chunk chunk in
      for_chunks rest (summaries ++ [summary])
  end.

Definition summarize_all_chunks (chunks : list Chunk.t)
  : Gen P (list ChunkSummary.t) :=
  for_chunks chunks [].

(** The outcomes of the provider calls a batch makes, chunk by chunk. *)
Fixpoint call_outcomes (chunks : list Chunk.t) (p : P) : list (outcome str) :=
  match chunks with
  | [] => []
  | chunk :: rest =>
      let (r, p') := call chunk p in
      r :: call_outcomes rest p'
  end.

End WithProvider.
End SummarizationAgent.

(** ** [SynthesisAgent] *)

Module SynthesisAgent.
Section WithProvider.
Context {P : Type} `{BaseLLMProvider P}.

Definition system_prompt : str := lit
"You are an expert at creating comprehensive video summaries.
Your task is to synthesize multiple chunk summaries into a well-structured, hierarchical summary.

Create a summary with the following structure:

# Video Summary

## Overview
[2-3 paragraph narrative overview of the entire video]

## Key Topics
[Organize content into main topics with hierarchical structure]

### Topic 1: [Topic Name] (HH:MM:SS - HH:MM:SS)
- Key point 1
- Key point 2
- Key point 3

[1-2 paragraph narrative explanation of this topic]

### Topic 2: [Topic Name] (HH:MM:SS - HH:MM:SS)
...

## Key Takeaways
- Main takeaway 1
- Main takeaway 2
- Main takeaway 3

Use clear headings, bullet points, and narrative paragraphs for comprehensive coverage.".

(** The block of one successful summary. *)
Definition block (summary : ChunkSummary.t) : str :=
  lit "[" ++ ChunkSummary.start_timestamp summary ++ lit " - "
    ++ ChunkSummary.end_timestamp summary ++ lit "]
" ++ ChunkSummary.summary summary ++ lit "
".

(** [for summary in chunk_summaries: if summary['success']: ...append(...)] *)
Fixpoint collect (chunk_summaries : list ChunkSummary.t) (summaries_text : list str)
  : list str :=
  match chunk_summaries with
  | [] => summaries_text
  | summary :: rest =>
      if ChunkSummary.success summary
      then collect rest (summaries_text ++ [block summary])
      else collect rest summaries_text
  end.

Definition combined_summaries (chunk_summaries : list ChunkSummary.t) : str :=
  join (lit "
") (collect chunk_summaries []).

(** [video_metadata.get(key, 'N/A')]; a value of the dictionary is kept
    as the text the f-string renders it to. *)
Definition get_or_na (video_metadata : gmap string str) (key : string) : str :=
  default (lit "N/A") (video_metadata !! key).

Definition user_prompt (chunk_summaries : list ChunkSummary.t)
  (video_metadata : gmap string str) : str :=
  lit "Here are summaries of different parts of a YouTube video:

Video URL: " ++ get_or_na video_metadata "url" ++ lit "
Duration: " ++ get_or_na video_metadata "duration" ++ lit " seconds

Chunk Summaries:
" ++ combined_summaries chunk_summaries ++ lit "

Create a comprehensive, hierarchical summary of this entire video following the structure specified in the system prompt. 
Organize the content logically by topics, include timestamps, use both bullet points and narrative paragraphs.".

(** The one call of [synthesize] to the provider. *)
Definition call (chunk_summaries : list ChunkSummary.t)
  (video_metadata : gmap string str) : Gen P (outcome str) :=
  fun p => generate p (user_prompt chunk_summaries video_metadata)
             (Some system_prompt) (4 # 10)%Q (Some 2000).

(** The document of the [except] branch. *)
Definition fallback (e : exception) (chunk_summaries : list ChunkSummary.t) : str :=
  (lit "# Video Summary

## Error
Failed to synthesize final summary: " ++ str_of e ++ lit "

") ++ (lit "## Chunk Summaries

" ++ combined_summaries chunk_summaries).

Definition synthesize (chunk_summaries : list ChunkSummary.t)
  (video_metadata : gmap string str) : Gen P str :=
  let! r := call chunk_summaries video_metadata in
  match r with
  | Returned final_summary => ret (strip final_summary)
  | Raised e =>
      (* Fallback: return combined summaries if synthesis fails *)
      ret (fallback e chunk_summaries)
  end.

(** [sum(1 for s in chunk_summaries if s['success'])] *)
Definition count_successful (chunk_summaries : list ChunkSummary.t) : Z :=
  fold_left (fun n s => if ChunkSummary.success s then n + 1 else n)
    chunk_summaries 0.

(** [video_metadata.get(key, default)] *)
Definition get_or (video_metadata : gmap string str) (key : string)
  (default_ : str) : str :=
  default default_ (video_metadata !! key).

Definition create_structured_summary (chunk_summaries : list ChunkSummary.t)
  (video_metadata : gmap string str) : Gen P SynthesisResult.t :=
  let! final_summary := synthesize chunk_summaries video_metadata in
  ret {| SynthesisResult.video_url := get_or video_metadata "url" (lit "N/A");
         SynthesisResult.video_id := get_or video_metadata "video_id" (lit "N/A");
         SynthesisResult.duration := get_or video_metadata "duration" (lit "0");
         SynthesisResult.summary := final_summary;
         SynthesisResult.chunk_count := Z.of_nat (length chunk_summaries);
         SynthesisResult.successful_chunks := count_successful chunk_summaries |}.

End WithProvider.
End SynthesisAgent.

(** * The vocabulary of the properties *)

(** ** Texts *)

(** Does the text start with a whitespace character? *)
Definition starts_space (s : str) : bool :=
  match s with
  | c :: _ => is_space c
  | [] => false
  end.

(** A text is squeezed when each of its whitespace characters is a space
    that no whitespace follows. *)
Fixpoint squeezed (s : str) : bool :=
  match s with
  | [] => true
  | c :: s' =>
      (if is_space c then Ascii.eqb c space && negb (starts_space s') else true)
      && squeezed s'
  end.

(** The characters of a text that are not whitespace, in order. *)
Definition visible (s : str) : str :=
  List.filter (fun c => negb (is_space c)) s.

(** No character of the text is a digit. *)
Definition no_digit (s : str) : bool :=
  forallb (fun c => negb (is_digit c)) s.

(** ** Summaries of a batch *)

(** The summary [summarize_chunk] builds from the outcome of its call. *)
Definition summary_of (chunk : Chunk.t) (r : outcome str) : ChunkSummary.t :=
  match r with
  | Returned summary =>
      ChunkSummary.mk (Chunk.chunk_id chunk) (Chunk.start_timestamp chunk)
        (Chunk.end_timestamp chunk) (strip summary) true
  | Raised e =>
      ChunkSummary.mk (Chunk.chunk_id chunk) (Chunk.start_timestamp chunk)
        (Chunk.end_timestamp chunk) (lit "Error: " ++ str_of e) false
  end.

(** The summaries of a batch, without the accumulator of the loop. *)
Fixpoint summaries_of (chunks : list Chunk.t) (outcomes : list (outcome str))
  : list ChunkSummary.t :=
  match chunks, outcomes with
  | chunk :: chunks', r :: outcomes' =>
      summary_of chunk r :: summaries_of chunks' outcomes'
  | _, _ => []
  end.

(** Did the call raise? *)
Definition raised (r : outcome str) : bool :=
  match r with Raised _ => true | Returned _ => false end.

(** [sum(1 for a in l if f(a))] *)
Definition count {A : Type} (f : A -> bool) (l : list A) : nat :=
  length (List.filter f l).

(** ** Timestamps *)

(** [shape classes t]: [t] has one character of each class, in order. *)
Fixpoint shape (classes : list (ascii -> bool)) (t : str) : bool :=
  match classes, t with
  | [], [] => true
  | p :: classes', c :: t' => p c && shape classes' t'
  | _, _ => false
  end.

(** A token of one or two digits, a colon and two digits, then possibly a
    colon and two more digits: M:SS, MM:SS, H:MM:SS or HH:MM:SS. *)
Definition is_timestamp (t : str) : bool :=
  let d := is_digit in
  let c := is_char TextProcessor.colon in
  shape [d; c; d; d] t || shape [d; d; c; d; d] t
  || shape [d; c; d; d; c; d; d] t || shape [d; d; c; d; d; c; d; d] t.

(** The tokens [ts] occur in [s] in this order, one after the other. *)
Inductive occur_in_order : list str -> str -> Prop :=
| occur_nil s : occur_in_order [] s
| occur_cons t ts pre rest :
    occur_in_order ts rest -> occur_in_order (t :: ts) (pre ++ t ++ rest).

(** Does the text start with a digit? *)
Definition starts_digit (s : str) : bool :=
  match s with
  | c :: _ => is_digit c
  | [] => false
  end.

(** The number two decimal digits write, -1 for another text. *)
Definition two_digit_value (s : str) : Z :=
  match s with
  | [a; b] => 10 * (Z.of_nat (ord a) - 48) + (Z.of_nat (ord b) - 48)
  | _ => -1
  end.

(** The number of seconds a text MM:SS or HH:MM:SS stands for, -1 for a
    text of another length. *)
Definition duration_value (s : str) : Z :=
  match s with
  | [a; b; _; d; e] => 60 * two_digit_value [a; b] + two_digit_value [d; e]
  | [a; b; _; d; e; _; f; g] =>
      3600 * two_digit_value [a; b] + 60 * two_digit_value [d; e]
      + two_digit_value [f; g]
  | _ => -1
  end.

(** ** The timestamps of a text, in the words of the specification *)

(** [take_shape classes s]: when [s] begins with one character of each
    class, in order, these characters and what follows them. *)
Fixpoint take_shape (classes : list (ascii -> bool)) (s : str)
  : option (str * str) :=
  match classes with
  | [] => Some ([], s)
  | p :: classes' =>
      match s with
      | c :: s' =>
          if p c then
            match take_shape classes' s' with
            | Some (t, r) => Some (c :: t, r)
            | None => None
            end
          else None
      | [] => None
      end
  end.

(** The shapes of a token: one or two digits, a colon, two digits, then
    possibly a colon and two more digits; the longer ones first. *)
Definition spec_shapes : list (list (ascii -> bool)) :=
  let d := is_digit in
  let c := is_char ":"%char in
  [[d; d; c; d; d; c; d; d]; [d; d; c; d; d]; [d; c; d; d; c; d; d]; [d; c; d; d]].

(** The first of the shapes that [s] begins with. *)
Fixpoint first_shape (shapes : list (list (ascii -> bool))) (s : str)
  : option (str * str) :=
  match shapes with
  | [] => None
  | sh :: more =>
      match take_shape sh s with
      | Some r => Some r
      | None => first_shape more s
      end
  end.

(** The token [s] begins with, and what follows it. *)
Definition spec_token_at (s : str) : option (str * str) :=
  first_shape spec_shapes s.

Definition spec_opening (c : ascii) : bool :=
  Ascii.eqb c "["%char || Ascii.eqb c "("%char.

Definition spec_closing (c : ascii) : bool :=
  Ascii.eqb c "]"%char || Ascii.eqb c ")"%char.

(** [r] without the closing bracket or parenthesis it may begin with. *)
Definition skip_closing (r : str) : str :=
  match r with
  | c :: r' => if spec_closing c then r' else r
  | [] => []
  end.

(** The timestamp at the head of [s]: a token, possibly wrapped in brackets
    or parentheses; with it, what follows the whole of it. *)
Definition spec_stamp_at (s : str) : option (str * str) :=
  let wrapped :=
    match s with
    | c :: s' => if spec_opening c then spec_token_at s' else None
    | [] => None
    end in
  match (match wrapped with Some r => Some r | None => spec_token_at s end) with
  | Some (tok, r) => Some (tok, skip_closing r)
  | None => None
  end.

(** The timestamps of [s] from left to right: the one at the head of [s]
    followed by those of what follows it, or else those of [s] without its
    first character. [fuel] bounds the length of [s]. *)
Fixpoint spec_scan (fuel : nat) (s : str) : list str :=
  match fuel, s with
  | S fuel', _ :: s' =>
      match spec_stamp_at s with
      | Some (tok, rest) => tok :: spec_scan fuel' rest
      | None => spec_scan fuel' s'
      end
  | _, _ => []
  end.

Definition spec_timestamps (s : str) : list str := spec_scan (length s) s.

(** Does a token begin somewhere in [s]? *)
Fixpoint has_timestamp (s : str) : bool :=
  match s with
  | [] => false
  | _ :: s' =>
      match spec_token_at s with
      | Some _ => true
      | None => has_timestamp s'
      end
  end.

(** Does [s] begin with a character a token can have? *)
Definition starts_token_char (s : str) : bool :=
  match s with
  | c :: _ => is_digit c || is_char ":"%char c
  | [] => false
  end.

(** The shapes tried in order, each with a continuation that may refuse. *)
Fixpoint try_shapes (shapes : list (list (ascii -> bool))) (s : str)
  (k : str -> str -> option Re.state) : option Re.state :=
  match shapes with
  | [] => None
  | sh :: more =>
      match
        match take_shape sh s with
        | Some (t, r) => k t r
        | None => None
        end
      with
      | Some x => Some x
      | None => try_shapes more s k
      end
  end.

(** ** Texts for the examples *)

Module Samples.

(** Two sentences, of 191 and 100 characters: 190 times "a", a period, a
    space and 100 times "b". *)
Definition two_sentences : str :=
  repeat (chr 97) 190 ++ lit ". " ++ repeat (chr 98) 100.

Definition first_sentence : str := repeat (chr 97) 190 ++ lit ".".

Definition second_sentence : str := repeat (chr 98) 100.

End Samples.

(** ** A provider for the examples: it answers from a script *)

Module Scripted.

(** The state is the list of outcomes still to give; a call takes the
    first, and raises when the script is over. *)
Definition next (p : list (outcome str)) : outcome str * list (outcome str) :=
  match p with
  | r :: p' => (r, p')
  | [] => (Raised (Exception (lit "script exhausted")), [])
  end.

#[global] Instance provider : BaseLLMProvider (list (outcome str)) := {|
  generate p _ _ _ _ := next p;
  is_available p := (true, p)
|}.

Definition chunk1 : Chunk.t :=
  Chunk.mk 1 (lit "[01:20] first part [03:45]") (lit "01:20") (lit "03:45") 26.
Definition chunk2 : Chunk.t :=
  Chunk.mk 2 (lit "[03:45] second part") (lit "03:45") (lit "03:45") 19.
Definition chunk3 : Chunk.t :=
  Chunk.mk 3 (lit "third part") (lit "00:00") (lit "00:00") 10.

Definition timeout : exception := Exception (lit "timed out").

(** A script of one call, which times out. *)
Definition failing : list (outcome str) := [Raised timeout].

End Scripted.

(** * Properties *)

(** ** Characters and stripping *)

Lemma newline_is_space : is_space newline = true.
Proof. reflexivity. Qed.

Lemma space_is_space : is_space space = true.
Proof. reflexivity. Qed.

Lemma lstrip_suffix (s : str) : exists w, s = w ++ lstrip s.
Proof.
  induction s as [|c s IH]; simpl.
  - exists []. reflexivity.
  - destruct (is_space c).
    + destruct IH as [w Hw]. exists (c :: w). simpl. congruence.
    + exists []. reflexivity.
Qed.

Lemma lstrip_length (s : str) : (length (lstrip s) <= length s)%nat.
Proof.
  induction s as [|c s IH]; simpl; [lia|].
  destruct (is_space c); simpl; lia.
Qed.

Lemma lstrip_drop (s : str) :
  drop (length s - length (lstrip s)) s = lstrip s.
Proof.
  induction s as [|c s IH]; simpl; [reflexivity|].
  destruct (is_space c) eqn:E.
  - pose proof (lstrip_length s).
    replace (S (length s) - length (lstrip s))%nat
      with (S (length s - length (lstrip s))) by lia.
    simpl. exact IH.
  - simpl. replace (length s - length s)%nat with O by lia. reflexivity.
Qed.

Lemma lstrip_starts (s : str) : starts_space (lstrip s) = false.
Proof.
  induction s as [|c s IH]; simpl; [reflexivity|].
  destruct (is_space c) eqn:E; [exact IH|]. simpl. exact E.
Qed.

Lemma lstrip_id (s : str) : starts_space s = false -> lstrip s = s.
Proof.
  destruct s as [|c s]; simpl; [reflexivity|]. intros ->. reflexivity.
Qed.

Lemma lstrip_idem (s : str) : lstrip (lstrip s) = lstrip s.
Proof. apply lstrip_id, lstrip_starts. Qed.

Lemma rstrip_prefix (s : str) : exists w, s = rstrip s ++ w.
Proof.
  unfold rstrip. destruct (lstrip_suffix (rev s)) as [w Hw].
  exists (rev w). rewrite <- rev_app_distr, <- Hw, rev_involutive. reflexivity.
Qed.

Lemma rstrip_idem (s : str) : rstrip (rstrip s) = rstrip s.
Proof. unfold rstrip. rewrite rev_involutive, lstrip_idem. reflexivity. Qed.

Lemma starts_space_prefix (a w : str) :
  a <> [] -> starts_space (a ++ w) = starts_space a.
Proof. destruct a; [congruence | reflexivity]. Qed.

Lemma rstrip_starts (s : str) :
  starts_space s = false -> starts_space (rstrip s) = false.
Proof.
  intros Hs. destruct (rstrip_prefix s) as [w Hw].
  destruct (rstrip s) as [|c r] eqn:E; [reflexivity|].
  rewrite Hw in Hs. exact Hs.
Qed.

Lemma strip_idem (s : str) : strip (strip s) = strip s.
Proof.
  unfold strip.
  rewrite (lstrip_id (rstrip (lstrip s))).
  - apply rstrip_idem.
  - apply rstrip_starts, lstrip_starts.
Qed.

(** ** The matcher *)

Module ReFacts.
Import Re.

Lemma consumed_app (pre s' : str) : consumed (pre ++ s') s' = pre.
Proof.
  unfold consumed. rewrite length_app.
  replace (length pre + length s' - length s')%nat with (length pre) by lia.
  apply take_app_length.
Qed.

(** A star hands to its continuation what follows a run of the class. *)
Lemma star_sound p s k x :
  star p s k = Some x ->
  exists pre s', s = pre ++ s' /\ k s' = Some x /\ forallb p pre = true.
Proof.
  revert x. induction s as [|c s IH]; simpl; intros x Hx.
  - exists [], []. repeat split. exact Hx.
  - destruct (p c) eqn:Hc.
    + destruct (star p s k) as [y|] eqn:E.
      * destruct (IH y eq_refl) as (pre & s' & -> & Hk & Hp).
        exists (c :: pre), s'. repeat split; [congruence|].
        simpl. rewrite Hc, Hp. reflexivity.
      * exists [], (c :: s). repeat split. exact Hx.
    + exists [], (c :: s). repeat split. exact Hx.
Qed.

(** A successful run hands to its continuation what follows a text the
    pattern matches: a proper suffix of the subject when the pattern is not
    nullable, with the groups unchanged when the pattern has none. *)
Lemma run_sound r : forall s caps k x,
  run r s caps k = Some x ->
  exists pre s' caps',
    s = pre ++ s' /\ k s' caps' = Some x /\ matches r pre /\
    (nullable r = false -> pre <> []) /\
    (has_group r = false -> caps' = caps).
Proof.
  induction r as [p | r1 IH1 r2 IH2 | r1 IH1 | p | r1 IH1];
    simpl; intros s caps k x Hx.
  - destruct s as [|c s]; [discriminate|].
    destruct (p c) eqn:Hc; [|discriminate].
    exists [c], s, caps. repeat split; [exact Hx | | discriminate].
    constructor. exact Hc.
  - destruct (IH1 _ _ _ _ Hx) as (pre1 & s1 & caps1 & -> & Hk1 & Hm1 & Hn1 & Hg1).
    destruct (IH2 _ _ _ _ Hk1) as (pre2 & s2 & caps2 & -> & Hk2 & Hm2 & Hn2 & Hg2).
    exists (pre1 ++ pre2), s2, caps2. rewrite <- app_assoc.
    repeat split; [exact Hk2 | constructor; assumption | |].
    + intros Hn. apply andb_false_iff in Hn. destruct Hn as [Hn|Hn].
      * specialize (Hn1 Hn). destruct pre1; [congruence | discriminate].
      * specialize (Hn2 Hn). destruct pre2; [congruence|].
        destruct pre1; discriminate.
    + intros Hg. apply orb_false_iff in Hg as [Hg Hg'].
      rewrite (Hg2 Hg'), (Hg1 Hg). reflexivity.
  - destruct (run r1 s caps k) as [y|] eqn:E.
    + destruct (IH1 _ _ _ _ E) as (pre & s' & caps' & -> & Hk & Hm & _ & Hg).
      exists pre, s', caps'.
      repeat split; [congruence | constructor; exact Hm | discriminate | exact Hg].
    + exists [], s, caps.
      repeat split; [exact Hx | apply matches_opt_none | discriminate].
  - destruct (star_sound _ _ _ _ Hx) as (pre & s' & -> & Hk & Hp).
    exists pre, s', caps.
    repeat split; [exact Hk | constructor; exact Hp | discriminate].
  - destruct (IH1 _ _ _ _ Hx) as (pre & s' & caps' & -> & Hk & Hm & Hn & _).
    exists pre, s', (caps' ++ [consumed (pre ++ s') s']).
    repeat split; [exact Hk | constructor; exact Hm | exact Hn | discriminate].
Qed.

(** A group without inner groups adds the text it matched to the groups. *)
Lemma run_group r s caps k x :
  has_group r = false -> run (Group r) s caps k = Some x ->
  exists pre s',
    s = pre ++ s' /\ k s' (caps ++ [pre]) = Some x /\ matches r pre.
Proof.
  simpl. intros Hg Hx.
  destruct (run_sound _ _ _ _ _ Hx) as (pre & s' & caps' & -> & Hk & Hm & _ & Hc).
  rewrite (Hc Hg), consumed_app in Hk. exists pre, s'.
  repeat split; [exact Hk | exact Hm].
Qed.

(** A pattern that is not nullable consumes at least one character. *)
Lemma match_at_consumes r s rest caps :
  nullable r = false -> match_at r s = Some (rest, caps) ->
  (length rest < length s)%nat.
Proof.
  unfold match_at. intros Hn Hm.
  destruct (run_sound _ _ _ _ _ Hm) as (pre & s' & caps' & -> & Hk & _ & Hp & _).
  injection Hk as -> ->. specialize (Hp Hn).
  rewrite length_app. destruct pre; [congruence | simpl; lia].
Qed.

(** With an accepting continuation a star takes the whole run. *)
Lemma star_greedy s caps :
  star is_space s (fun s' => Some (s', caps)) = Some (lstrip s, caps).
Proof.
  induction s as [|c s IH]; simpl; [reflexivity|].
  destruct (is_space c); [rewrite IH|]; reflexivity.
Qed.

(** The characters of a match are passed without a further match. *)
Lemma sub_from_skip r repl s : forall n,
  sub_from r repl s n = sub_from r repl (drop n s) 0.
Proof.
  induction s as [|c s IH]; intros [|n]; simpl; try reflexivity.
  apply IH.
Qed.

End ReFacts.

(** ** [clean_text] *)

Module CleanFacts.
Import Re ReFacts TextProcessor.

Lemma match_ws_run c s :
  match_at ws_run (c :: s) = if is_space c then Some (lstrip s, []) else None.
Proof.
  unfold match_at, ws_run. simpl.
  destruct (is_space c); [apply star_greedy | reflexivity].
Qed.

(** [re.sub(r'\s+', ' ', _)], one character at a time. *)
Lemma sub_ws_cons c s :
  Re.sub ws_run [space] (c :: s) =
  if is_space c then space :: Re.sub ws_run [space] (lstrip s)
  else c :: Re.sub ws_run [space] s.
Proof.
  unfold Re.sub at 1. cbn [sub_from]. rewrite match_ws_run.
  destruct (is_space c); [|reflexivity].
  pose proof (lstrip_length s).
  replace (length (c :: s) - length (lstrip s))%nat
    with (S (length s - length (lstrip s))) by (simpl; lia).
  rewrite sub_from_skip, lstrip_drop. reflexivity.
Qed.

Lemma sub_ws_starts s :
  starts_space s = false -> starts_space (Re.sub ws_run [space] s) = false.
Proof.
  destruct s as [|c s]; [reflexivity|]. simpl. intros Hc.
  rewrite sub_ws_cons, Hc. simpl. exact Hc.
Qed.

Lemma sub_ws_squeezed_upto n : forall s,
  (length s <= n)%nat -> squeezed (Re.sub ws_run [space] s) = true.
Proof.
  induction n as [|n IH]; intros [|c s] Hl; try reflexivity;
    simpl in Hl; [lia|].
  rewrite sub_ws_cons. destruct (is_space c) eqn:E.
  - cbn [squeezed]. rewrite space_is_space, Ascii.eqb_refl.
    rewrite sub_ws_starts by apply lstrip_starts.
    rewrite IH by (pose proof (lstrip_length s); lia). reflexivity.
  - cbn [squeezed]. rewrite E, IH by lia. reflexivity.
Qed.

(** The whitespace substitution leaves a squeezed text ... *)
Lemma sub_ws_squeezed s : squeezed (Re.sub ws_run [space] s) = true.
Proof. apply (sub_ws_squeezed_upto (length s)). lia. Qed.

(** ... and does not change a squeezed text. *)
Lemma sub_ws_id s : squeezed s = true -> Re.sub ws_run [space] s = s.
Proof.
  induction s as [|c s IH]; [reflexivity|].
  cbn [squeezed]. intros Hs. apply andb_true_iff in Hs as [Hc Hs].
  rewrite sub_ws_cons. destruct (is_space c).
  - apply andb_true_iff in Hc as [Hc Hn].
    apply Ascii.eqb_eq in Hc. apply negb_true_iff in Hn.
    rewrite (lstrip_id s Hn), IH by exact Hs. congruence.
  - rewrite IH by exact Hs. reflexivity.
Qed.

Lemma match_blank_line c s :
  is_char newline c = false -> match_at blank_line (c :: s) = None.
Proof. unfold match_at, blank_line. simpl. intros ->. reflexivity. Qed.

(** A squeezed text has no newline, so no blank line to remove. *)
Lemma sub_blank_line_id s :
  squeezed s = true -> Re.sub blank_line [newline] s = s.
Proof.
  unfold Re.sub. induction s as [|c s IH]; [reflexivity|].
  cbn [squeezed]. intros Hs. apply andb_true_iff in Hs as [Hc Hs].
  assert (Hnl : is_char newline c = false).
  { unfold is_char. destruct (Ascii.eqb c newline) eqn:E; [|reflexivity].
    apply Ascii.eqb_eq in E. subst c. discriminate Hc. }
  cbn [sub_from]. rewrite (match_blank_line c s Hnl), (IH Hs). reflexivity.
Qed.

Lemma squeezed_app_l a b : squeezed (a ++ b) = true -> squeezed a = true.
Proof.
  induction a as [|c a IH]; [reflexivity|].
  simpl. intros Hs. apply andb_true_iff in Hs as [Hc Hs].
  rewrite (IH Hs), andb_true_r.
  destruct (is_space c); [|reflexivity].
  destruct a; [|exact Hc].
  apply andb_true_iff in Hc as [-> _]. reflexivity.
Qed.

Lemma squeezed_app_r a b : squeezed (a ++ b) = true -> squeezed b = true.
Proof.
  induction a as [|c a IH]; [trivial|].
  simpl. intros Hs. apply andb_true_iff in Hs as [_ Hs]. exact (IH Hs).
Qed.

Lemma strip_squeezed s : squeezed s = true -> squeezed (strip s) = true.
Proof.
  intros Hs. unfold strip.
  destruct (lstrip_suffix s) as [w Hw]. rewrite Hw in Hs.
  apply squeezed_app_r in Hs.
  destruct (rstrip_prefix (lstrip s)) as [w' Hw']. rewrite Hw' in Hs.
  exact (squeezed_app_l _ _ Hs).
Qed.

(** What [clean_text] returns: the squeezed text, stripped. *)
Lemma clean_text_eq s : clean_text s = strip (Re.sub ws_run [space] s).
Proof.
  unfold clean_text. rewrite sub_blank_line_id by apply sub_ws_squeezed.
  reflexivity.
Qed.

Lemma clean_text_squeezed s : squeezed (clean_text s) = true.
Proof. rewrite clean_text_eq. apply strip_squeezed, sub_ws_squeezed. Qed.

End CleanFacts.

(** C7. Cleaning is idempotent: for every text [x],
    [clean_text (clean_text x) = clean_text x]. *)
Theorem clean_text_idempotent (x : str) :
  TextProcessor.clean_text (TextProcessor.clean_text x) = TextProcessor.clean_text x.
Proof.
  rewrite (CleanFacts.clean_text_eq (TextProcessor.clean_text x)).
  rewrite CleanFacts.sub_ws_id by apply CleanFacts.clean_text_squeezed.
  rewrite CleanFacts.clean_text_eq. apply strip_idem.
Qed.

(** ** [split_into_chunks] *)

Module SplitFacts.
Import TextProcessor.

(** The first two lines of [split_into_chunks]: a text no longer than
    [max_chunk_size] is returned whole, before the loop and whatever
    [overlap] is. *)
Lemma split_short fuel text max_chunk_size overlap :
  len text <= max_chunk_size ->
  split_into_chunks fuel text max_chunk_size overlap = Some [text].
Proof.
  intros Hle. unfold split_into_chunks.
  destruct (Z.leb_spec (len text) max_chunk_size); [reflexivity | lia].
Qed.

(** A cursor that a step leaves where it is never reaches the end. *)
Lemma split_loop_stuck text max_chunk_size overlap start :
  start < len text ->
  (forall chunks, exists chunks',
      split_step text max_chunk_size overlap start chunks = (start, chunks')) ->
  forall fuel chunks,
    split_loop fuel text max_chunk_size overlap start chunks = None.
Proof.
  intros Hlt Hstep. induction fuel as [|fuel IH]; intros chunks;
    cbn [split_loop]; destruct (Z.ltb_spec start (len text)); try lia;
    [reflexivity|].
  destruct (Hstep chunks) as [chunks' ->]. apply IH.
Qed.

(** More fuel does not change a result. *)
Lemma split_loop_more_fuel text max_chunk_size overlap fuel :
  forall fuel' start chunks result,
    (fuel <= fuel')%nat ->
    split_loop fuel text max_chunk_size overlap start chunks = Some result ->
    split_loop fuel' text max_chunk_size overlap start chunks = Some result.
Proof.
  induction fuel as [|fuel IH]; intros fuel' start chunks result Hle;
    cbn [split_loop]; destruct fuel' as [|fuel']; cbn [split_loop];
    destruct (start <? len text); try discriminate; try lia; trivial.
  destruct (split_step text max_chunk_size overlap start chunks) as [start' chunks'].
  apply IH. lia.
Qed.

Lemma adjust_index_bounds n i : 0 <= n -> 0 <= adjust_index n i <= n.
Proof. unfold adjust_index. intros Hn. destruct (Z.ltb_spec i 0); lia. Qed.

Lemma adjust_index_id n i : 0 <= i <= n -> adjust_index n i = i.
Proof. unfold adjust_index. intros Hi. destruct (Z.ltb_spec i 0); lia. Qed.

Lemma rfind_from_bounds sub s : forall i lo hi best,
  rfind_from sub s i lo hi best = best \/
  (lo <= rfind_from sub s i lo hi best /\
   rfind_from sub s i lo hi best + len sub <= hi).
Proof.
  induction s as [|c s IH]; intros i lo hi best; cbn [rfind_from].
  - destruct ((lo <=? i) && (i + len sub <=? hi) && starts_with sub []) eqn:E;
      [|left; reflexivity].
    apply andb_true_iff in E as [E _]. apply andb_true_iff in E as [E1 E2]. lia.
  - destruct ((lo <=? i) && (i + len sub <=? hi) && starts_with sub (c :: s)) eqn:E.
    + apply andb_true_iff in E as [E _]. apply andb_true_iff in E as [E1 E2].
      destruct (IH (i + 1) lo hi i) as [-> | Hb]; [right; lia | right; exact Hb].
    + apply IH.
Qed.

(** [rfind] answers -1 or an index of the searched window. *)
Lemma rfind_bounds s sub start end_ :
  rfind s sub start end_ = -1 \/
  (adjust_index (len s) start <= rfind s sub start end_ /\
   rfind s sub start end_ + len sub <= adjust_index (len s) end_).
Proof. unfold rfind. apply rfind_from_bounds. Qed.

(** When [overlap + 200 <= max_chunk_size], a step moves the cursor
    forward: the sentence end is searched in the last 200 characters of the
    window only, so the snapped end stays more than [overlap] after [start]. *)
Lemma split_step_progress text max_chunk_size overlap start chunks :
  0 <= overlap -> overlap + 200 <= max_chunk_size ->
  0 <= start < len text ->
  start < (split_step text max_chunk_size overlap start chunks).1 <= len text.
Proof.
  intros Ho Hm Hs. unfold split_step. cbn [fst].
  set (end0 := start + max_chunk_size).
  destruct (Z.ltb_spec end0 (len text)) as [Hend|Hend].
  - set (search_start := Z.max (end0 - 200) start).
    assert (Hss : adjust_index (len text) search_start = end0 - 200)
      by (rewrite adjust_index_id; lia).
    assert (He : adjust_index (len text) end0 = end0)
      by (rewrite adjust_index_id; lia).
    pose proof (rfind_bounds text (lit ". ") search_start end0) as H1.
    pose proof (rfind_bounds text (lit "! ") search_start end0) as H2.
    pose proof (rfind_bounds text (lit "? ") search_start end0) as H3.
    rewrite Hss, He in H1, H2, H3.
    change (len (lit ". ")) with 2 in H1. change (len (lit "! ")) with 2 in H2.
    change (len (lit "? ")) with 2 in H3.
    set (r1 := rfind text (lit ". ") search_start end0) in *.
    set (r2 := rfind text (lit "! ") search_start end0) in *.
    set (r3 := rfind text (lit "? ") search_start end0) in *.
    destruct (Z.gtb_spec (Z.max (Z.max r1 r2) r3) start) as [Hsnap|Hsnap].
    + destruct (Z.ltb_spec (Z.max (Z.max r1 r2) r3 + 1) (len text)); lia.
    + destruct (Z.ltb_spec end0 (len text)); lia.
  - destruct (Z.ltb_spec end0 (len text)); lia.
Qed.

(** With such sizes the loop ends within [len text - start] iterations. *)
Lemma split_loop_terminates text max_chunk_size overlap :
  0 <= overlap -> overlap + 200 <= max_chunk_size ->
  forall (n : nat) start chunks,
    0 <= start -> len text - start <= Z.of_nat n ->
    exists result,
      split_loop n text max_chunk_size overlap start chunks = Some result.
Proof.
  intros Ho Hm. induction n as [|n IH]; intros start chunks Hs Hn;
    cbn [split_loop]; destruct (Z.ltb_spec start (len text)) as [Hlt|Hge];
    try (eexists; reflexivity); [lia|].
  pose proof (split_step_progress text max_chunk_size overlap start chunks
                Ho Hm ltac:(lia)) as Hp.
  destruct (split_step text max_chunk_size overlap start chunks) as [start' chunks'].
  cbn [fst] in Hp. apply IH; lia.
Qed.

(** [split_into_chunks] returns for every text when
    [overlap + 200 <= max_chunk_size], as with the default sizes 4000 and
    200: [len(text)] iterations are enough. *)
Lemma split_into_chunks_terminates text max_chunk_size overlap :
  0 <= overlap -> overlap + 200 <= max_chunk_size ->
  exists result,
    forall fuel, (length text <= fuel)%nat ->
      split_into_chunks fuel text max_chunk_size overlap = Some result.
Proof.
  intros Ho Hm. unfold split_into_chunks.
  destruct (len text <=? max_chunk_size); [eexists; reflexivity|].
  destruct (split_loop_terminates text max_chunk_size overlap Ho Hm
              (length text) 0 [] ltac:(lia) ltac:(unfold len; lia)) as [result Hr].
  exists result. intros fuel Hf.
  apply (split_loop_more_fuel _ _ _ (length text)); assumption.
Qed.

(** When [overlap >= max_chunk_size] the end of the text is out of reach:
    a window that ends before the end of the text is followed by a window
    that ends before it too. *)
Lemma split_step_no_progress text max_chunk_size overlap start chunks :
  max_chunk_size <= overlap ->
  0 <= max_chunk_size < len text ->
  start + max_chunk_size < len text ->
  (split_step text max_chunk_size overlap start chunks).1 + max_chunk_size
  < len text.
Proof.
  intros Ho Hm Hs. unfold split_step. cbn [fst].
  set (end0 := start + max_chunk_size) in *.
  destruct (Z.ltb_spec end0 (len text)) as [Hend|Hend]; [|lia].
  set (search_start := Z.max (end0 - 200) start).
  pose proof (adjust_index_bounds (len text) end0 ltac:(unfold len; lia)) as He.
  pose proof (adjust_index_bounds (len text) search_start ltac:(unfold len; lia)) as Hss.
  pose proof (rfind_bounds text (lit ". ") search_start end0) as H1.
  pose proof (rfind_bounds text (lit "! ") search_start end0) as H2.
  pose proof (rfind_bounds text (lit "? ") search_start end0) as H3.
  change (len (lit ". ")) with 2 in H1. change (len (lit "! ")) with 2 in H2.
  change (len (lit "? ")) with 2 in H3.
  set (r1 := rfind text (lit ". ") search_start end0) in *.
  set (r2 := rfind text (lit "! ") search_start end0) in *.
  set (r3 := rfind text (lit "? ") search_start end0) in *.
  destruct (Z.gtb_spec (Z.max (Z.max r1 r2) r3) start) as [Hsnap|Hsnap].
  - destruct (Z.ltb_spec (Z.max (Z.max r1 r2) r3 + 1) (len text)); lia.
  - destruct (Z.ltb_spec end0 (len text)); lia.
Qed.

(** So with [overlap >= max_chunk_size >= 0] the loop never ends on a text
    longer than [max_chunk_size]. *)
Lemma split_invalid_overlap_diverges text max_chunk_size overlap :
  0 <= max_chunk_size <= overlap ->
  max_chunk_size < len text ->
  forall fuel, split_into_chunks fuel text max_chunk_size overlap = None.
Proof.
  intros Hm Hlong fuel. unfold split_into_chunks.
  destruct (Z.leb_spec (len text) max_chunk_size); [lia|].
  assert (Hloop : forall fuel start chunks,
             start + max_chunk_size < len text ->
             split_loop fuel text max_chunk_size overlap start chunks = None).
  { clear fuel. induction fuel as [|fuel IH]; intros start chunks Hs;
      cbn [split_loop]; destruct (Z.ltb_spec start (len text)); try lia;
      [reflexivity|].
    pose proof (split_step_no_progress text max_chunk_size overlap start chunks
                  ltac:(lia) ltac:(lia) Hs) as Hp.
    destruct (split_step text max_chunk_size overlap start chunks) as [start' chunks'].
    apply IH, Hp. }
  apply Hloop. lia.
Qed.

(** The loop appends stripped chunks that are not empty. *)
Lemma split_step_nonempty text max_chunk_size overlap start chunks :
  Forall (fun chunk => chunk <> []) chunks ->
  Forall (fun chunk => chunk <> [])
    (split_step text max_chunk_size overlap start chunks).2.
Proof.
  intros Hall. unfold split_step. cbn [snd].
  match goal with |- context [strip ?x] => destruct (strip x) as [|c chunk] end;
    [exact Hall|].
  apply Forall_app. split; [exact Hall|]. constructor; [discriminate | constructor].
Qed.

Lemma split_loop_nonempty text max_chunk_size overlap fuel :
  forall start chunks result,
    Forall (fun chunk => chunk <> []) chunks ->
    split_loop fuel text max_chunk_size overlap start chunks = Some result ->
    Forall (fun chunk => chunk <> []) result.
Proof.
  induction fuel as [|fuel IH]; intros start chunks result Hall;
    cbn [split_loop]; destruct (start <? len text); try discriminate;
    try (intros [= <-]; exact Hall).
  pose proof (split_step_nonempty text max_chunk_size overlap start chunks Hall) as Hn.
  destruct (split_step text max_chunk_size overlap start chunks) as [start' chunks'].
  apply IH, Hn.
Qed.

(** Every chunk of a text that is not empty is not empty. *)
Lemma split_into_chunks_nonempty fuel text max_chunk_size overlap result :
  text <> [] ->
  split_into_chunks fuel text max_chunk_size overlap = Some result ->
  Forall (fun chunk => chunk <> []) result.
Proof.
  intros Ht. unfold split_into_chunks.
  destruct (len text <=? max_chunk_size).
  - intros [= <-]. constructor; [exact Ht | constructor].
  - apply split_loop_nonempty. constructor.
Qed.

End SplitFacts.

(** C6. Short-input passthrough: for every text with
    [len text <= max_chunk_size], [split_into_chunks] returns exactly the
    one-element list [[text]], the whole text unchanged (with any fuel: the
    loop is not entered). *)
Theorem split_short_passthrough (fuel : nat) (text : str) (max_chunk_size overlap : Z) :
  len text <= max_chunk_size ->
  TextProcessor.split_into_chunks fuel text max_chunk_size overlap = Some [text].
Proof. apply SplitFacts.split_short. Qed.

Lemma split_short_passthrough_witness :
  len (lit "[00:01] hello") <= 4000 /\
  TextProcessor.split_into_chunks 0 (lit "[00:01] hello") 4000 200
  = Some [lit "[00:01] hello"].
Proof.
  split; [vm_compute; discriminate|].
  apply (split_short_passthrough 0 (lit "[00:01] hello") 4000 200).
  vm_compute. discriminate.
Defined.




(** C5, at the failing input. [max_chunk_size = 10] and [overlap = 3] are a
    valid configuration, and the text has 18 characters. The first window is
    snapped to the sentence end at index 2, so [end = 3] and the next cursor
    is [end - overlap = 0] again: each iteration appends the chunk "ab." and
    leaves the cursor at 0, and no number of iterations returns a list,
    from [split_into_chunks] or from [chunk_transcript]. *)
Theorem split_valid_config_diverges :
  0 < 10 /\ 0 <= 3 < 10 /\
  (forall chunks,
     TextProcessor.split_step (lit "ab. cccccccccccccc") 10 3 0 chunks
     = (0, chunks ++ [lit "ab."])) /\
  (forall fuel,
     TextProcessor.split_into_chunks fuel (lit "ab. cccccccccccccc") 10 3 = None) /\
  (forall fuel,
     ChunkingAgent.chunk_transcript fuel (ChunkingAgent.init 10 3)
       (lit "ab. cccccccccccccc") = None).
Proof.
  assert (Hstep : forall chunks,
             TextProcessor.split_step (lit "ab. cccccccccccccc") 10 3 0 chunks
             = (0, chunks ++ [lit "ab."])) by (intros chunks; reflexivity).
  assert (Hsplit : forall fuel,
             TextProcessor.split_into_chunks fuel (lit "ab. cccccccccccccc") 10 3
             = None).
  { intros fuel. unfold TextProcessor.split_into_chunks.
    change (len (lit "ab. cccccccccccccc") <=? 10) with false. cbv iota.
    apply SplitFacts.split_loop_stuck; [vm_compute; reflexivity|].
    intros chunks. eexists. apply Hstep. }
  split; [lia|]. split; [lia|]. split; [exact Hstep|]. split; [exact Hsplit|].
  intros fuel. unfold ChunkingAgent.chunk_transcript.
  change (TextProcessor.clean_text (lit "ab. cccccccccccccc"))
    with (lit "ab. cccccccccccccc").
  cbn [ChunkingAgent.init ChunkingAgent.max_chunk_size ChunkingAgent.overlap].
  rewrite Hsplit. reflexivity.
Qed.

(** C10, at the failing input. A whitespace-only transcript cleans to the
    empty text, which the first two lines of [split_into_chunks] return as
    the single chunk: [chunk_transcript] emits one [Chunk] whose [text] is
    empty (the loop, which drops empty chunks, is not reached). *)
Theorem empty_transcript_empty_chunk :
  TextProcessor.clean_text (lit "   ") = [] /\
  forall fuel,
    ChunkingAgent.chunk_transcript fuel ChunkingAgent.default (lit "   ")
    = Some [Chunk.mk 1 [] (lit "00:00") (lit "00:00") 0].
Proof. split; [reflexivity | intros fuel; reflexivity]. Qed.

(** ** Substrings *)

Lemma contains_refl (s : str) : contains s s.
Proof. exists [], []. rewrite app_nil_r. reflexivity. Qed.

Lemma contains_app_l (sub a b : str) : contains sub a -> contains sub (a ++ b).
Proof.
  intros (pre & post & ->). exists pre, (post ++ b).
  rewrite <- !app_assoc. reflexivity.
Qed.

Lemma contains_app_r (sub a b : str) : contains sub b -> contains sub (a ++ b).
Proof.
  intros (pre & post & ->). exists (a ++ pre), post.
  rewrite <- !app_assoc. reflexivity.
Qed.

Lemma contains_join (sep sub p : str) (parts : list str) :
  In p parts -> contains sub p -> contains sub (join sep parts).
Proof.
  intros Hin Hsub. induction parts as [|q parts IH]; [destruct Hin|].
  destruct Hin as [-> | Hin].
  - destruct parts; [exact Hsub | apply contains_app_l, Hsub].
  - specialize (IH Hin). destruct parts as [|q' parts]; [destruct Hin|].
    change (join sep (q :: q' :: parts)) with (q ++ sep ++ join sep (q' :: parts)).
    apply contains_app_r, contains_app_r, IH.
Qed.

(** ** The map stage *)

Module MapFacts.
Section WithProvider.
Import SummarizationAgent.
Context {P : Type} `{BaseLLMProvider P}.

Lemma summarize_chunk_eq chunk (p : P) :
  summarize_chunk chunk p = (summary_of chunk (call chunk p).1, (call chunk p).2).
Proof.
  unfold summarize_chunk, bind. destruct (call chunk p) as [[summary|e] p'];
    reflexivity.
Qed.

Lemma for_chunks_eq chunks : forall summaries (p : P),
  (for_chunks chunks summaries p).1
  = summaries ++ summaries_of chunks (call_outcomes chunks p).
Proof.
  induction chunks as [|chunk chunks IH]; intros summaries p; simpl.
  - rewrite app_nil_r. reflexivity.
  - unfold bind. rewrite summarize_chunk_eq.
    destruct (call chunk p) as [r p']. simpl.
    rewrite IH, <- app_assoc. reflexivity.
Qed.

Lemma summarize_all_chunks_eq chunks (p : P) :
  (summarize_all_chunks chunks p).1
  = summaries_of chunks (call_outcomes chunks p).
Proof. unfold summarize_all_chunks. rewrite for_chunks_eq. reflexivity. Qed.

Lemma call_outcomes_length chunks : forall p : P,
  length (call_outcomes chunks p) = length chunks.
Proof.
  induction chunks as [|chunk chunks IH]; intros p; simpl; [reflexivity|].
  destruct (call chunk p) as [r p']. simpl. rewrite IH. reflexivity.
Qed.

Lemma summaries_of_length chunks : forall outcomes,
  length outcomes = length chunks ->
  length (summaries_of chunks outcomes) = length chunks.
Proof.
  induction chunks as [|chunk chunks IH]; intros [|r outcomes] Hl;
    simpl in *; try lia.
  rewrite IH by lia. reflexivity.
Qed.

Lemma summaries_of_ids chunks : forall outcomes,
  length outcomes = length chunks ->
  map ChunkSummary.chunk_id (summaries_of chunks outcomes)
  = map Chunk.chunk_id chunks.
Proof.
  induction chunks as [|chunk chunks IH]; intros [|r outcomes] Hl;
    simpl in *; try lia; try reflexivity.
  rewrite IH by lia. destruct r; reflexivity.
Qed.

Lemma count_split {A : Type} (f : A -> bool) (l : list A) :
  (count f l + count (fun a => negb (f a)) l = length l)%nat.
Proof.
  unfold count. induction l as [|a l IH]; simpl; [reflexivity|].
  destruct (f a); simpl; lia.
Qed.

(** As many failed summaries as calls that raised. *)
Lemma summaries_of_failed chunks : forall outcomes,
  length outcomes = length chunks ->
  count (fun s => negb (ChunkSummary.success s)) (summaries_of chunks outcomes)
  = count raised outcomes.
Proof.
  unfold count.
  induction chunks as [|chunk chunks IH]; intros [|r outcomes] Hl;
    simpl in *; try lia; try reflexivity.
  destruct r; simpl; rewrite IH by lia; reflexivity.
Qed.

End WithProvider.
End MapFacts.

Module MapLookup.
Section WithProvider.
Import SummarizationAgent MapFacts.
Context {P : Type} `{BaseLLMProvider P}.

Lemma summaries_of_lookup chunks : forall outcomes (i : nat) chunk r,
  chunks !! i = Some chunk -> outcomes !! i = Some r ->
  summaries_of chunks outcomes !! i = Some (summary_of chunk r).
Proof.
  induction chunks as [|c chunks IH]; intros [|r0 outcomes] [|i] chunk r Hc Hr;
    simpl in *; try discriminate.
  - congruence.
  - eapply IH; eassumption.
Qed.

Lemma lookup_ids (result : list ChunkSummary.t) (chunks : list Chunk.t) :
  map ChunkSummary.chunk_id result = map Chunk.chunk_id chunks ->
  forall i : nat,
    ChunkSummary.chunk_id <$> (result !! i) = Chunk.chunk_id <$> (chunks !! i).
Proof.
  intros Hmap i. rewrite <- !list_lookup_fmap.
  change (map ChunkSummary.chunk_id result !! i = map Chunk.chunk_id chunks !! i).
  rewrite Hmap. reflexivity.
Qed.

End WithProvider.
End MapLookup.

(** C2. Order preservation: for every provider state and every list of [n]
    chunks, [summarize_all_chunks] returns [n] summaries, and the summary at
    each index carries the [chunk_id] of the chunk at that index; whether the
    calls return or raise plays no part. *)
Theorem summarize_all_order_preserved {P : Type} `{BaseLLMProvider P}
  (p : P) (chunks : list Chunk.t) :
  let result := (SummarizationAgent.summarize_all_chunks chunks p).1 in
  length result = length chunks /\
  forall i : nat,
    ChunkSummary.chunk_id <$> (result !! i) = Chunk.chunk_id <$> (chunks !! i).
Proof.
  cbv zeta. rewrite MapFacts.summarize_all_chunks_eq.
  pose proof (MapFacts.call_outcomes_length chunks p) as Hl. split.
  - apply MapFacts.summaries_of_length, Hl.
  - apply MapLookup.lookup_ids, MapFacts.summaries_of_ids, Hl.
Qed.

(** C3. Failure isolation. (1) When the call of [summarize_chunk] raises
    [e], the summary returned has [success = false] and a [summary] text that
    begins with the marker "Error: " and contains [str(e)]. (2) In a batch
    where exactly one call raises, [summarize_all_chunks] returns one summary
    per chunk, exactly one with [success = false] and the other [n - 1] with
    [success = true]. (3) In any batch, the summary of a chunk whose call
    returned [t] is the stripped [t] with [success = true] and the chunk's
    own identity and time range. *)
Theorem summarize_failure_isolated {P : Type} `{BaseLLMProvider P} :
  (forall (p p' : P) (chunk : Chunk.t) (e : exception),
      SummarizationAgent.call chunk p = (Raised e, p') ->
      let s := (SummarizationAgent.summarize_chunk chunk p).1 in
      ChunkSummary.success s = false /\
      begins_with (lit "Error: ") (ChunkSummary.summary s) /\
      contains (str_of e) (ChunkSummary.summary s)) /\
  (forall (p : P) (chunks : list Chunk.t),
      count raised (SummarizationAgent.call_outcomes chunks p) = 1%nat ->
      let result := (SummarizationAgent.summarize_all_chunks chunks p).1 in
      length result = length chunks /\
      count (fun s => negb (ChunkSummary.success s)) result = 1%nat /\
      count ChunkSummary.success result = (length chunks - 1)%nat) /\
  (forall (p : P) (chunks : list Chunk.t) (i : nat) (chunk : Chunk.t) (t : str),
      chunks !! i = Some chunk ->
      SummarizationAgent.call_outcomes chunks p !! i = Some (Returned t) ->
      (SummarizationAgent.summarize_all_chunks chunks p).1 !! i
      = Some (ChunkSummary.mk (Chunk.chunk_id chunk) (Chunk.start_timestamp chunk)
                (Chunk.end_timestamp chunk) (strip t) true)).
Proof.
  split; [|split].
  - intros p p' chunk e Hcall. cbv zeta.
    rewrite MapFacts.summarize_chunk_eq, Hcall. simpl.
    split; [reflexivity|]. split.
    + exists (str_of e). reflexivity.
    + exists (lit "Error: "), []. rewrite app_nil_r. reflexivity.
  - intros p chunks Hone. cbv zeta.
    rewrite MapFacts.summarize_all_chunks_eq.
    pose proof (MapFacts.call_outcomes_length chunks p) as Hl.
    pose proof (MapFacts.summaries_of_length chunks _ Hl) as Hn.
    pose proof (MapFacts.summaries_of_failed chunks _ Hl) as Hf.
    pose proof (MapFacts.count_split ChunkSummary.success
                  (summaries_of chunks
                     (SummarizationAgent.call_outcomes chunks p))) as Hs.
    rewrite Hone in Hf. split; [exact Hn|]. split; [exact Hf|]. lia.
  - intros p chunks i chunk t Hc Hr.
    rewrite MapFacts.summarize_all_chunks_eq.
    apply (MapLookup.summaries_of_lookup chunks _ i chunk (Returned t) Hc Hr).
Qed.

Lemma summarize_failure_isolated_witness :
  let p := [Returned (lit " one "); Raised Scripted.timeout; Returned (lit "three")] in
  let chunks := [Scripted.chunk1; Scripted.chunk2; Scripted.chunk3] in
  count raised (SummarizationAgent.call_outcomes chunks p) = 1%nat /\
  (length (SummarizationAgent.summarize_all_chunks chunks p).1 = 3%nat /\
   count (fun s => negb (ChunkSummary.success s))
     (SummarizationAgent.summarize_all_chunks chunks p).1 = 1%nat /\
   count ChunkSummary.success
     (SummarizationAgent.summarize_all_chunks chunks p).1 = 2%nat) /\
  ChunkSummary.success
    (SummarizationAgent.summarize_chunk Scripted.chunk2 Scripted.failing).1
  = false /\
  (SummarizationAgent.summarize_all_chunks chunks p).1 !! 0%nat
  = Some (ChunkSummary.mk 1 (lit "01:20") (lit "03:45") (lit "one") true).
Proof.
  intros p chunks.
  destruct (@summarize_failure_isolated _ Scripted.provider) as (Hone & Hbatch & Hothers).
  split; [reflexivity|]. split; [|split].
  - apply (Hbatch p chunks). reflexivity.
  - apply (Hone Scripted.failing [] Scripted.chunk2 Scripted.timeout).
    reflexivity.
  - apply (Hothers p chunks 0%nat Scripted.chunk1 (lit " one ")); reflexivity.
Defined.

(** C9. For every chunk and every provider state, whether the call returns
    (success branch) or raises (failure branch), the summary returned by
    [summarize_chunk] has the [chunk_id], [start_timestamp] and
    [end_timestamp] of the chunk. *)
Theorem summarize_chunk_carries_identity {P : Type} `{BaseLLMProvider P}
  (p : P) (chunk : Chunk.t) :
  let s := (SummarizationAgent.summarize_chunk chunk p).1 in
  ChunkSummary.chunk_id s = Chunk.chunk_id chunk /\
  ChunkSummary.start_timestamp s = Chunk.start_timestamp chunk /\
  ChunkSummary.end_timestamp s = Chunk.end_timestamp chunk.
Proof.
  cbv zeta. unfold SummarizationAgent.summarize_chunk, bind.
  destruct (SummarizationAgent.call chunk p) as [[summary|e] p'];
    simpl; repeat split.
Qed.

(** ** The reduce stage *)

Module ReduceFacts.
Import SynthesisAgent.

Lemma collect_acc chunk_summaries : forall summaries_text b,
  In b summaries_text -> In b (collect chunk_summaries summaries_text).
Proof.
  induction chunk_summaries as [|s l IH]; intros acc b Hb; simpl; [exact Hb|].
  destruct (ChunkSummary.success s); apply IH; [|exact Hb].
  apply in_or_app. left. exact Hb.
Qed.

(** The block of each successful summary is collected. *)
Lemma collect_block chunk_summaries : forall summaries_text s,
  In s chunk_summaries -> ChunkSummary.success s = true ->
  In (block s) (collect chunk_summaries summaries_text).
Proof.
  induction chunk_summaries as [|s0 l IH]; intros acc s Hin Hs; [destruct Hin|].
  simpl. destruct Hin as [-> | Hin].
  - rewrite Hs. apply collect_acc, in_or_app. right. left. reflexivity.
  - destruct (ChunkSummary.success s0); apply IH; assumption.
Qed.

Lemma block_contains s : contains (ChunkSummary.summary s) (block s).
Proof.
  unfold block. do 5 apply contains_app_r. apply contains_app_l, contains_refl.
Qed.

Lemma combined_contains chunk_summaries s :
  In s chunk_summaries -> ChunkSummary.success s = true ->
  contains (ChunkSummary.summary s) (combined_summaries chunk_summaries).
Proof.
  intros Hin Hs. unfold combined_summaries.
  eapply contains_join; [apply collect_block; eassumption | apply block_contains].
Qed.

End ReduceFacts.

(** C1. Reduce fallback: for every list of chunk summaries, every metadata
    dictionary and every provider state, if the call of [synthesize] raises
    [e] then [synthesize] returns (it has no raising path) the fallback
    document: it is not empty, begins with the heading "# Video Summary",
    contains the error section with [str(e)], and contains the [summary] text
    of every input summary with [success = true]. *)
Theorem synthesize_fallback {P : Type} `{BaseLLMProvider P} (p p' : P)
  (chunk_summaries : list ChunkSummary.t) (video_metadata : gmap string str)
  (e : exception) :
  SynthesisAgent.call chunk_summaries video_metadata p = (Raised e, p') ->
  let doc := (SynthesisAgent.synthesize chunk_summaries video_metadata p).1 in
  doc = SynthesisAgent.fallback e chunk_summaries /\
  doc <> [] /\
  begins_with (lit "# Video Summary") doc /\
  contains (lit "## Error
Failed to synthesize final summary: " ++ str_of e) doc /\
  contains (lit "## Chunk Summaries") doc /\
  forall s, In s chunk_summaries -> ChunkSummary.success s = true ->
            contains (ChunkSummary.summary s) doc.
Proof.
  intros Hcall. cbv zeta.
  assert (Hdoc : (SynthesisAgent.synthesize chunk_summaries video_metadata p).1
                 = SynthesisAgent.fallback e chunk_summaries).
  { unfold SynthesisAgent.synthesize, bind. rewrite Hcall. reflexivity. }
  rewrite Hdoc. split; [reflexivity|]. unfold SynthesisAgent.fallback.
  split; [discriminate|]. split; [|split; [|split]].
  - eexists. reflexivity.
  - apply contains_app_l.
    exists (lit "# Video Summary

"), (lit "

"). reflexivity.
  - apply contains_app_r, contains_app_l.
    exists [], (lit "

"). reflexivity.
  - intros s Hin Hs. do 2 apply contains_app_r.
    apply ReduceFacts.combined_contains; assumption.
Qed.

Lemma synthesize_fallback_witness :
  let summaries :=
    [ChunkSummary.mk 1 (lit "01:20") (lit "03:45") (lit "one") true;
     ChunkSummary.mk 2 (lit "03:45") (lit "03:45") (lit "Error: timed out") false] in
  let metadata : gmap string str := {[ "url"%string := lit "https://www.youtube.com/watch?v=x" ]} in
  SynthesisAgent.call summaries metadata Scripted.failing
  = (Raised Scripted.timeout, []) /\
  (SynthesisAgent.synthesize summaries metadata Scripted.failing).1
  = lit "# Video Summary

## Error
Failed to synthesize final summary: timed out

## Chunk Summaries

[01:20 - 03:45]
one
".
Proof.
  intros summaries metadata. split; [reflexivity|].
  rewrite (proj1 (@synthesize_fallback _ Scripted.provider
                    Scripted.failing [] summaries metadata Scripted.timeout
                    eq_refl)).
  reflexivity.
Defined.

(** ** [extract_timestamps] *)

Module FindallFacts.
Import Re ReFacts.

Lemma findall_from_skip r s : forall n,
  findall_from r s n = findall_from r (drop n s) 0.
Proof.
  induction s as [|c s IH]; intros [|n]; simpl; try reflexivity.
  apply IH.
Qed.

(** [findall], one position at a time: a match that reads at least one
    character gives its group and the scan resumes at its end; otherwise
    the scan moves one character on. *)
Lemma findall_cons r c s :
  findall r (c :: s) =
  match match_at r (c :: s) with
  | Some (rest, caps) =>
      if (length rest <? length (c :: s))%nat
      then hd [] caps :: findall r rest
      else findall r s
  | None => findall r s
  end.
Proof.
  unfold findall. cbn [findall_from].
  destruct (match_at r (c :: s)) as [[rest caps]|] eqn:E; [|reflexivity].
  unfold match_at in E.
  destruct (run_sound _ _ _ _ _ E) as (pre & s' & caps' & Hs & Hk & _).
  injection Hk as -> ->. rewrite Hs, length_app.
  replace (length pre + length rest - length rest)%nat with (length pre) by lia.
  destruct pre as [|c0 pre]; simpl in Hs.
  - subst rest. simpl.
    destruct (Nat.ltb_spec (S (length s)) (S (length s))); [lia | reflexivity].
  - injection Hs as -> ->. cbn [length].
    destruct (Nat.ltb_spec (length rest) (S (length pre) + length rest)); [|lia].
    rewrite findall_from_skip, drop_app_length. reflexivity.
Qed.

End FindallFacts.

Module TimestampFacts.
Import Re ReFacts FindallFacts TextProcessor.

Lemma occur_in_order_app ts pre s :
  occur_in_order ts s -> occur_in_order ts (pre ++ s).
Proof.
  intros Ho. destruct Ho as [s | t ts pre' rest Ho]; [constructor|].
  rewrite app_assoc. constructor. exact Ho.
Qed.

Ltac invert_matches :=
  repeat match goal with
    | H : matches (Cat _ _) _ |- _ => inversion H; subst; clear H
    | H : matches (Opt _) _ |- _ => inversion H; subst; clear H
    | H : matches (Cls _) _ |- _ => inversion H; subst; clear H
    end.

(** The texts of the group have the shape of a timestamp. *)
Lemma token_shape tok : matches timestamp_token tok -> is_timestamp tok = true.
Proof.
  unfold timestamp_token, two_digits, is_timestamp. intros Hm.
  invert_matches; simpl;
    repeat match goal with H : _ = true |- _ => rewrite H; clear H end;
    simpl; rewrite ?orb_true_r; reflexivity.
Qed.

(** A match of the whole pattern: an optional opening bracket, the token,
    which is the one group, and an optional closing bracket. *)
Lemma match_timestamp s rest caps :
  match_at timestamp_pattern s = Some (rest, caps) ->
  exists a tok b,
    s = a ++ tok ++ b ++ rest /\ caps = [tok] /\ matches timestamp_token tok.
Proof.
  unfold match_at, timestamp_pattern. intros Hm.
  change (run (Opt (Cls open_bracket)) s []
            (fun s1 caps1 =>
               run (Group timestamp_token) s1 caps1
                 (fun s2 caps2 =>
                    run (Opt (Cls close_bracket)) s2 caps2
                      (fun s' caps' => Some (s', caps'))))
          = Some (rest, caps)) in Hm.
  destruct (run_sound (Opt (Cls open_bracket)) _ _ _ _ Hm)
    as (a & s1 & caps1 & -> & Hk1 & _ & _ & Hc1).
  cbv beta in Hk1. rewrite (Hc1 eq_refl) in Hk1.
  destruct (run_group timestamp_token _ _ _ _ eq_refl Hk1)
    as (tok & s2 & -> & Hk2 & Htok).
  cbv beta in Hk2.
  destruct (run_sound (Opt (Cls close_bracket)) _ _ _ _ Hk2)
    as (b & s3 & caps3 & -> & Hk3 & _ & _ & Hc3).
  cbv beta in Hk3. rewrite (Hc3 eq_refl) in Hk3.
  injection Hk3 as Hrest Hcaps. subst rest caps.
  exists a, tok, b. repeat split. exact Htok.
Qed.

(** Every token [extract_timestamps] returns has the shape of a timestamp,
    and the tokens occur in the text from left to right, without overlap. *)
Lemma extract_upto n : forall s,
  (length s <= n)%nat ->
  Forall (fun t => is_timestamp t = true) (extract_timestamps s) /\
  occur_in_order (extract_timestamps s) s.
Proof.
  unfold extract_timestamps.
  induction n as [|n IH]; intros [|c s] Hl; simpl in Hl; try lia;
    try (split; constructor).
  rewrite findall_cons.
  assert (Hnext : Forall (fun t => is_timestamp t = true) (findall timestamp_pattern s) /\
                  occur_in_order (findall timestamp_pattern s) (c :: s)).
  { destruct (IH s ltac:(lia)) as [Hf Ho]. split; [exact Hf|].
    apply (occur_in_order_app _ [c]), Ho. }
  destruct (match_at timestamp_pattern (c :: s)) as [[rest caps]|] eqn:E;
    [|exact Hnext].
  destruct (Nat.ltb_spec (length rest) (length (c :: s))) as [Hlt|]; [|exact Hnext].
  destruct (match_timestamp _ _ _ E) as (a & tok & b & Hs & -> & Htok).
  simpl in Hlt. destruct (IH rest ltac:(lia)) as [Hf Ho]. simpl hd. split.
  - constructor; [apply token_shape, Htok | exact Hf].
  - rewrite Hs. constructor. apply occur_in_order_app, Ho.
Qed.

(** No match begins at a character that is not a digit and that no digit
    follows. *)
Lemma no_match c s :
  is_digit c = false -> starts_digit s = false ->
  match_at timestamp_pattern (c :: s) = None.
Proof.
  unfold match_at, timestamp_pattern, timestamp_token. intros Hc Hs.
  cbn [run]. rewrite Hc. destruct (open_bracket c); [|reflexivity].
  destruct s as [|d s]; [reflexivity|]. simpl in Hs. rewrite Hs. reflexivity.
Qed.

Lemma starts_digit_app a rest :
  forallb (fun c => negb (is_digit c)) a = true -> starts_digit rest = false ->
  starts_digit (a ++ rest) = false.
Proof.
  destruct a as [|c a]; [trivial|]. simpl. intros Ha _.
  apply andb_true_iff in Ha as [Hc _]. apply negb_true_iff, Hc.
Qed.

(** A stretch without digits is passed without a match. *)
Lemma extract_no_digits a rest :
  forallb (fun c => negb (is_digit c)) a = true -> starts_digit rest = false ->
  extract_timestamps (a ++ rest) = extract_timestamps rest.
Proof.
  unfold extract_timestamps. intros Ha Hr.
  induction a as [|c a IH]; [reflexivity|].
  simpl in Ha. apply andb_true_iff in Ha as [Hc Ha]. apply negb_true_iff in Hc.
  change ((c :: a) ++ rest) with (c :: (a ++ rest)).
  rewrite findall_cons, no_match by (auto using starts_digit_app).
  apply IH, Ha.
Qed.

Lemma extract_nil_no_digits a :
  forallb (fun c => negb (is_digit c)) a = true -> extract_timestamps a = [].
Proof.
  intros Ha. rewrite <- (app_nil_r a).
  rewrite extract_no_digits by (exact Ha || reflexivity). reflexivity.
Qed.

(** A match that reads [pre] gives its token, and the scan resumes after
    [pre]. *)
Lemma extract_step pre rest tok :
  pre <> [] ->
  match_at timestamp_pattern (pre ++ rest) = Some (rest, [tok]) ->
  extract_timestamps (pre ++ rest) = tok :: extract_timestamps rest.
Proof.
  unfold extract_timestamps. intros Hpre Hm.
  destruct pre as [|c pre]; [congruence|].
  change ((c :: pre) ++ rest) with (c :: (pre ++ rest)) in *.
  rewrite findall_cons, Hm. simpl. rewrite length_app.
  destruct (Nat.ltb_spec (length rest) (S (length pre + length rest)));
    [reflexivity | lia].
Qed.

Lemma match_0120 rest :
  match_at timestamp_pattern (lit "[01:20]" ++ rest) = Some (rest, [lit "01:20"]).
Proof.
  unfold match_at, timestamp_pattern, timestamp_token, two_digits.
  cbv -[consumed].
  change (consumed _ _)
    with (consumed (lit "01:20" ++ ("]"%char :: rest)) ("]"%char :: rest)).
  rewrite consumed_app. reflexivity.
Qed.

Lemma match_0345 rest :
  match_at timestamp_pattern (lit "[03:45]" ++ rest) = Some (rest, [lit "03:45"]).
Proof.
  unfold match_at, timestamp_pattern, timestamp_token, two_digits.
  cbv -[consumed].
  change (consumed _ _)
    with (consumed (lit "03:45" ++ ("]"%char :: rest)) ("]"%char :: rest)).
  rewrite consumed_app. reflexivity.
Qed.

(** The scenario of the specification: a text whose only timestamps are
    [01:20] and [03:45], in that order, with no digit around them. *)
Lemma extract_scenario a b c :
  forallb (fun x => negb (is_digit x)) a = true ->
  forallb (fun x => negb (is_digit x)) b = true ->
  forallb (fun x => negb (is_digit x)) c = true ->
  extract_timestamps (a ++ lit "[01:20]" ++ b ++ lit "[03:45]" ++ c)
  = [lit "01:20"; lit "03:45"].
Proof.
  intros Ha Hb Hc.
  rewrite (extract_no_digits a) by (exact Ha || reflexivity).
  rewrite (extract_step (lit "[01:20]") _ (lit "01:20"))
    by (discriminate || apply match_0120).
  rewrite (extract_no_digits b) by (exact Hb || reflexivity).
  rewrite (extract_step (lit "[03:45]") _ (lit "03:45"))
    by (discriminate || apply match_0345).
  rewrite extract_nil_no_digits by exact Hc. reflexivity.
Qed.

(** Each dictionary of [add_metadata] is [with_metadata] of a chunk text. *)
Lemma add_metadata_In chunks : forall idx chunk_data chunk,
  In chunk (ChunkingAgent.add_metadata idx chunks chunk_data) ->
  In chunk chunk_data \/
  exists i chunk_text, In chunk_text chunks /\ chunk = ChunkingAgent.with_metadata i chunk_text.
Proof.
  induction chunks as [|t chunks IH]; intros idx acc chunk Hin; simpl in Hin.
  - left. exact Hin.
  - destruct (IH _ _ _ Hin) as [Hacc | (i & t' & Ht' & ->)].
    + apply in_app_or in Hacc as [Hacc | [<- | []]]; [left; exact Hacc|].
      right. exists idx, t. split; [left; reflexivity | reflexivity].
    + right. exists i, t'. split; [right; exact Ht' | reflexivity].
Qed.

Lemma last_or_sentinel_last t0 ts :
  exists front, t0 :: ts = front ++ [ChunkingAgent.last_or_sentinel (t0 :: ts)].
Proof.
  unfold ChunkingAgent.last_or_sentinel.
  destruct (exists_last (l := t0 :: ts) ltac:(discriminate)) as (front & x & E).
  rewrite E, last_last. exists front. reflexivity.
Qed.

End TimestampFacts.

Module StampFacts.
Import Re ReFacts FindallFacts TextProcessor TimestampFacts.

Lemma take_shape_spec classes : forall s t r,
  take_shape classes s = Some (t, r) -> s = t ++ r /\ shape classes t = true.
Proof.
  induction classes as [|p classes IH]; intros s t r; simpl.
  - intros [= <- <-]. split; reflexivity.
  - destruct s as [|c s]; [discriminate|].
    destruct (p c) eqn:Hc; [|discriminate].
    destruct (take_shape classes s) as [[t' r']|] eqn:E; [|discriminate].
    intros [= <- <-]. destruct (IH _ _ _ E) as [-> Hs].
    split; [reflexivity|]. simpl. rewrite Hc. exact Hs.
Qed.

Lemma take_shape_complete classes : forall t r,
  shape classes t = true -> take_shape classes (t ++ r) = Some (t, r).
Proof.
  induction classes as [|p classes IH]; intros [|c t] r; simpl;
    try discriminate; [reflexivity|].
  intros H. apply andb_true_iff in H as [Hc Ht].
  rewrite Hc, (IH _ _ Ht). reflexivity.
Qed.

(** The group of the pattern tries the four shapes in order. *)
Lemma run_token s caps k :
  run timestamp_token s caps k = try_shapes spec_shapes s (fun _ r => k r caps).
Proof.
  unfold timestamp_token, two_digits, spec_shapes.
  change colon with ":"%char.
  cbn [run try_shapes].
  repeat (match goal with
          | |- context [match ?x with [] => _ | _ :: _ => _ end] =>
              is_var x; destruct x
          end; cbn [take_shape]; try reflexivity;
          repeat (match goal with
                  | |- context [if ?b then _ else _] => destruct b eqn:?
                  end; cbn [take_shape]; try reflexivity));
    repeat match goal with |- context [k ?r ?c] => destruct (k r c) end;
    reflexivity.
Qed.

Lemma try_shapes_ext shapes s k1 k2 :
  (forall sh t r, take_shape sh s = Some (t, r) -> k1 t r = k2 t r) ->
  try_shapes shapes s k1 = try_shapes shapes s k2.
Proof.
  intros Hk. induction shapes as [|sh more IH]; simpl; [reflexivity|].
  destruct (take_shape sh s) as [[t r]|] eqn:E; [|exact IH].
  rewrite (Hk _ _ _ E), IH. reflexivity.
Qed.

(** With a continuation that accepts, the first shape that fits wins. *)
Lemma try_shapes_first shapes s (g : str -> str -> state) :
  try_shapes shapes s (fun t r => Some (g t r))
  = match first_shape shapes s with
    | Some (t, r) => Some (g t r)
    | None => None
    end.
Proof.
  induction shapes as [|sh more IH]; simpl; [reflexivity|].
  destruct (take_shape sh s) as [[t r]|]; [reflexivity | exact IH].
Qed.

Lemma run_closing s caps :
  run (Opt (Cls close_bracket)) s caps (fun s' caps' => Some (s', caps'))
  = Some (skip_closing s, caps).
Proof.
  cbn [run]. destruct s as [|c s]; [reflexivity|]. unfold skip_closing.
  change (close_bracket c) with (spec_closing c).
  destruct (spec_closing c); reflexivity.
Qed.

(** The group and the closing bracket: the token of the first shape that
    fits is the group, and the match ends after the bracket. *)
Lemma run_group_closing s caps :
  run (Cat (Group timestamp_token) (Opt (Cls close_bracket))) s caps
    (fun s' caps' => Some (s', caps'))
  = match spec_token_at s with
    | Some (tok, r) => Some (skip_closing r, caps ++ [tok])
    | None => None
    end.
Proof.
  cbn [run]. rewrite run_token.
  rewrite (try_shapes_ext _ _ _ (fun t r => Some (skip_closing r, caps ++ [t]))).
  - apply try_shapes_first.
  - intros sh t r E. apply take_shape_spec in E as [-> _].
    change (run (Opt (Cls close_bracket)) r (caps ++ [consumed (t ++ r) r])
              (fun s' caps' => Some (s', caps'))
            = Some (skip_closing r, caps ++ [t])).
    rewrite run_closing, consumed_app. reflexivity.
Qed.

(** What the pattern matches at the head of a text is the timestamp the
    specification describes there. *)
Lemma match_stamp s :
  match_at timestamp_pattern s
  = match spec_stamp_at s with
    | Some (tok, rest) => Some (rest, [tok])
    | None => None
    end.
Proof.
  unfold match_at, timestamp_pattern.
  change (run (Cat (Opt (Cls open_bracket))
                 (Cat (Group timestamp_token) (Opt (Cls close_bracket)))) s []
            (fun s' caps => Some (s', caps)))
    with (match
             match s with
             | c :: s' =>
                 if open_bracket c
                 then run (Cat (Group timestamp_token) (Opt (Cls close_bracket)))
                        s' [] (fun s' caps => Some (s', caps))
                 else None
             | [] => None
             end
           with
           | Some x => Some x
           | None =>
               run (Cat (Group timestamp_token) (Opt (Cls close_bracket)))
                 s [] (fun s' caps => Some (s', caps))
           end).
  unfold spec_stamp_at. rewrite run_group_closing.
  destruct s as [|c s]; [reflexivity|].
  change (open_bracket c) with (spec_opening c).
  destruct (spec_opening c).
  - rewrite run_group_closing.
    destruct (spec_token_at s) as [[tok r]|]; [reflexivity|].
    destruct (spec_token_at (c :: s)) as [[tok r]|]; reflexivity.
  - destruct (spec_token_at (c :: s)) as [[tok r]|]; reflexivity.
Qed.

Lemma is_timestamp_shapes t :
  is_timestamp t = existsb (fun sh => shape sh t) spec_shapes.
Proof.
  unfold is_timestamp, spec_shapes. cbn [existsb].
  change colon with ":"%char.
  repeat match goal with |- context [shape ?l t] => destruct (shape l t) end;
    reflexivity.
Qed.

Lemma first_shape_spec shapes s t r :
  first_shape shapes s = Some (t, r) ->
  s = t ++ r /\ existsb (fun sh => shape sh t) shapes = true.
Proof.
  induction shapes as [|sh more IH]; simpl; [discriminate|].
  destruct (take_shape sh s) as [[t' r']|] eqn:E.
  - intros [= -> ->]. apply take_shape_spec in E as [-> Hs].
    split; [reflexivity|]. rewrite Hs. reflexivity.
  - intros Hf. destruct (IH Hf) as [-> He]. split; [reflexivity|].
    rewrite He. apply orb_true_r.
Qed.

(** A token is a text of the shape of a timestamp at the head. *)
Lemma token_at_spec s t r :
  spec_token_at s = Some (t, r) -> s = t ++ r /\ is_timestamp t = true.
Proof.
  unfold spec_token_at. intros Hf.
  destruct (first_shape_spec _ _ _ _ Hf) as [-> He]. split; [reflexivity|].
  rewrite is_timestamp_shapes. exact He.
Qed.

(** Where a text of the shape of a timestamp begins, a token begins. *)
Lemma token_at_complete t r :
  is_timestamp t = true -> spec_token_at (t ++ r) <> None.
Proof.
  rewrite is_timestamp_shapes. unfold spec_token_at.
  induction spec_shapes as [|sh more IH]; simpl; [discriminate|].
  intros He. apply orb_true_iff in He as [Hs | He].
  - rewrite (take_shape_complete _ _ r Hs). discriminate.
  - destruct (take_shape sh (t ++ r)); [discriminate | exact (IH He)].
Qed.

Lemma skip_closing_suffix r : exists post, r = post ++ skip_closing r.
Proof.
  destruct r as [|c r]; [exists []; reflexivity|]. simpl.
  destruct (spec_closing c); [exists [c] | exists []]; reflexivity.
Qed.

(** A timestamp at the head of [s]: an optional opening, the token, an
    optional closing, then the rest. *)
Lemma stamp_at_spec s tok rest :
  spec_stamp_at s = Some (tok, rest) ->
  exists pre post,
    s = pre ++ tok ++ post ++ rest /\ is_timestamp tok = true.
Proof.
  unfold spec_stamp_at. intros Hs.
  assert (Hcases : exists pre r, s = pre ++ tok ++ r /\ is_timestamp tok = true /\
                                 rest = skip_closing r).
  { destruct s as [|c s].
    - destruct (spec_token_at []) as [[t r]|] eqn:E; [|discriminate].
      injection Hs as <- <-. apply token_at_spec in E as [E Ht].
      exists [], r. repeat split; assumption.
    - destruct (spec_opening c).
      + destruct (spec_token_at s) as [[t r]|] eqn:E.
        * injection Hs as <- <-. apply token_at_spec in E as [-> Ht].
          exists [c], r. repeat split; assumption.
        * destruct (spec_token_at (c :: s)) as [[t r]|] eqn:E'; [|discriminate].
          injection Hs as <- <-. apply token_at_spec in E' as [E' Ht].
          exists [], r. repeat split; assumption.
      + destruct (spec_token_at (c :: s)) as [[t r]|] eqn:E'; [|discriminate].
        injection Hs as <- <-. apply token_at_spec in E' as [E' Ht].
        exists [], r. repeat split; assumption. }
  destruct Hcases as (pre & r & -> & Ht & ->).
  destruct (skip_closing_suffix r) as [post Hpost].
  exists pre, post. rewrite <- Hpost. split; [reflexivity | exact Ht].
Qed.

Lemma is_timestamp_nonempty tok : is_timestamp tok = true -> tok <> [].
Proof. intros H ->. discriminate H. Qed.

Lemma stamp_at_shorter s tok rest :
  spec_stamp_at s = Some (tok, rest) -> (length rest < length s)%nat.
Proof.
  intros Hs. destruct (stamp_at_spec _ _ _ Hs) as (pre & post & -> & Ht).
  apply is_timestamp_nonempty in Ht. rewrite !length_app.
  destruct tok; [congruence | simpl; lia].
Qed.

(** [extract_timestamps], one position at a time. *)
Lemma extract_cons c s :
  extract_timestamps (c :: s)
  = match spec_stamp_at (c :: s) with
    | Some (tok, rest) => tok :: extract_timestamps rest
    | None => extract_timestamps s
    end.
Proof.
  unfold extract_timestamps. rewrite findall_cons, match_stamp.
  destruct (spec_stamp_at (c :: s)) as [[tok rest]|] eqn:E; [|reflexivity].
  pose proof (stamp_at_shorter _ _ _ E) as Hlt.
  destruct (Nat.ltb_spec (length rest) (length (c :: s))); [reflexivity | lia].
Qed.

(** [extract_timestamps] returns the timestamps the specification
    describes. *)
Lemma spec_scan_extract fuel : forall s,
  (length s <= fuel)%nat -> spec_scan fuel s = extract_timestamps s.
Proof.
  induction fuel as [|fuel IH]; intros [|c s] Hl; simpl in Hl; try lia;
    try reflexivity.
  cbn [spec_scan]. rewrite extract_cons.
  destruct (spec_stamp_at (c :: s)) as [[tok rest]|] eqn:E.
  - pose proof (stamp_at_shorter _ _ _ E) as Hlt. simpl in Hlt.
    rewrite IH by lia. reflexivity.
  - apply IH. lia.
Qed.

Lemma stamp_at_none c s :
  spec_token_at (c :: s) = None -> spec_token_at s = None ->
  spec_stamp_at (c :: s) = None.
Proof.
  unfold spec_stamp_at. intros -> ->. destruct (spec_opening c); reflexivity.
Qed.

Lemma stamp_at_some s :
  spec_token_at s <> None -> spec_stamp_at s <> None.
Proof.
  unfold spec_stamp_at. intros Hs.
  destruct s as [|c s].
  - destruct (spec_token_at []) as [[t r]|]; [discriminate | congruence].
  - destruct (spec_opening c).
    + destruct (spec_token_at s) as [[t r]|]; [discriminate|].
      destruct (spec_token_at (c :: s)) as [[t r]|]; [discriminate | congruence].
    + destruct (spec_token_at (c :: s)) as [[t r]|]; [discriminate | congruence].
Qed.

Lemma token_at_nil : spec_token_at [] = None.
Proof. reflexivity. Qed.

Lemma has_timestamp_head s :
  has_timestamp s = false -> spec_token_at s = None.
Proof.
  destruct s as [|c s]; [reflexivity|]. cbn [has_timestamp].
  destruct (spec_token_at (c :: s)); [discriminate | reflexivity].
Qed.

Lemma has_timestamp_tail c s :
  has_timestamp (c :: s) = false -> has_timestamp s = false.
Proof.
  cbn [has_timestamp]. destruct (spec_token_at (c :: s)); [discriminate | trivial].
Qed.

(** Nothing is extracted exactly when no token begins anywhere. *)
Lemma extract_nil_iff s :
  extract_timestamps s = [] <-> has_timestamp s = false.
Proof.
  induction s as [|c s IH]; [split; reflexivity|].
  rewrite extract_cons. split.
  - destruct (spec_stamp_at (c :: s)) as [[tok rest]|] eqn:E; [discriminate|].
    intros He. cbn [has_timestamp].
    destruct (spec_token_at (c :: s)) eqn:Et.
    + exfalso. apply (stamp_at_some (c :: s)); [rewrite Et; discriminate | exact E].
    + apply IH, He.
  - intros Hh.
    rewrite (stamp_at_none c s (has_timestamp_head _ Hh)
               (has_timestamp_head _ (has_timestamp_tail _ _ Hh))).
    apply IH. exact (has_timestamp_tail _ _ Hh).
Qed.

(** A token begins somewhere exactly when the text has a substring of the
    shape of a timestamp. *)
Lemma has_timestamp_iff s :
  has_timestamp s = true <->
  exists pre tok post, s = pre ++ tok ++ post /\ is_timestamp tok = true.
Proof.
  split.
  - induction s as [|c s IH]; [discriminate|]. cbn [has_timestamp].
    destruct (spec_token_at (c :: s)) as [[t r]|] eqn:E.
    + intros _. apply token_at_spec in E as [E Ht].
      exists [], t, r. split; assumption.
    + intros Hs. destruct (IH Hs) as (pre & tok & post & -> & Ht).
      exists (c :: pre), tok, post. split; [reflexivity | exact Ht].
  - intros (pre & tok & post & -> & Ht).
    induction pre as [|c pre IH].
    + pose proof (token_at_complete tok post Ht) as Hc.
      pose proof (is_timestamp_nonempty _ Ht) as Hne.
      destruct tok as [|c tok]; [congruence|]. simpl app in *.
      cbn [has_timestamp]. destruct (spec_token_at (c :: tok ++ post));
        [reflexivity | congruence].
    + simpl app. cbn [has_timestamp].
      destruct (spec_token_at (c :: pre ++ tok ++ post)); [reflexivity | exact IH].
Qed.

(** A shape that does not begin [x] does not begin [x] followed by a text
    that begins with no character of a token. *)
Lemma take_shape_boundary classes : forall x rest,
  Forall (fun p => forall c, p c = true -> is_digit c || is_char ":"%char c = true)
    classes ->
  starts_token_char rest = false ->
  take_shape classes x = None -> take_shape classes (x ++ rest) = None.
Proof.
  induction classes as [|p classes IH]; intros x rest Hcl Hr; simpl;
    [discriminate|].
  inversion Hcl as [|p' cl' Hp Hcl']; subst.
  destruct x as [|c x]; simpl.
  - intros _. destruct rest as [|r0 rest]; [reflexivity|].
    destruct (p r0) eqn:E; [|reflexivity].
    apply Hp in E. simpl in Hr. congruence.
  - destruct (p c); [|reflexivity].
    destruct (take_shape classes x) as [[t r]|] eqn:E; [discriminate|].
    intros _. rewrite (IH x rest Hcl' Hr E). reflexivity.
Qed.

Lemma spec_shapes_classes :
  Forall (Forall (fun p : ascii -> bool =>
                    forall c, p c = true -> is_digit c || is_char ":"%char c = true))
    spec_shapes.
Proof.
  assert (Hd : forall c, is_digit c = true -> is_digit c || is_char ":"%char c = true)
    by (intros c ->; reflexivity).
  assert (Hc : forall c, is_char ":"%char c = true ->
                         is_digit c || is_char ":"%char c = true)
    by (intros c ->; apply orb_true_r).
  unfold spec_shapes. repeat constructor; assumption.
Qed.

Lemma token_at_boundary x rest :
  starts_token_char rest = false ->
  spec_token_at x = None -> spec_token_at (x ++ rest) = None.
Proof.
  unfold spec_token_at. intros Hr. pose proof spec_shapes_classes as Hall.
  induction Hall as [|sh more Hsh Hall IH]; simpl; [reflexivity|].
  destruct (take_shape sh x) as [[t r]|] eqn:E; [discriminate|].
  intros Hm. rewrite (take_shape_boundary sh x rest Hsh Hr E). exact (IH Hm).
Qed.

(** A stretch in which no token begins is passed without a match when the
    text that follows begins with no character of a token. *)
Lemma extract_skip a rest :
  has_timestamp a = false -> starts_token_char rest = false ->
  extract_timestamps (a ++ rest) = extract_timestamps rest.
Proof.
  intros Ha Hr. induction a as [|c a IH]; [reflexivity|].
  change ((c :: a) ++ rest) with (c :: (a ++ rest)).
  rewrite extract_cons, stamp_at_none.
  - apply IH. exact (has_timestamp_tail _ _ Ha).
  - apply (token_at_boundary (c :: a) rest Hr), has_timestamp_head, Ha.
  - apply (token_at_boundary a rest Hr), has_timestamp_head.
    exact (has_timestamp_tail _ _ Ha).
Qed.

(** The scenario of the specification: the timestamps [01:20] and [03:45],
    in this order, and no other timestamp around them. *)
Lemma extract_two_stamps a b c :
  has_timestamp a = false -> has_timestamp b = false -> has_timestamp c = false ->
  extract_timestamps (a ++ lit "[01:20]" ++ b ++ lit "[03:45]" ++ c)
  = [lit "01:20"; lit "03:45"].
Proof.
  intros Ha Hb Hc.
  rewrite (extract_skip a) by (exact Ha || reflexivity).
  rewrite (extract_step (lit "[01:20]") _ (lit "01:20"))
    by (discriminate || apply match_0120).
  rewrite (extract_skip b) by (exact Hb || reflexivity).
  rewrite (extract_step (lit "[03:45]") _ (lit "03:45"))
    by (discriminate || apply match_0345).
  apply extract_nil_iff in Hc. rewrite Hc. reflexivity.
Qed.

End StampFacts.

(** C8. Timestamp extraction. (1) [extract_timestamps] returns the
    timestamps of the text as the specification describes them
    ([spec_timestamps]): the text is scanned from the left for a token of one
    or two digits, a colon and two digits, possibly followed by a colon and
    two more digits, possibly wrapped in brackets or parentheses, and the
    scan resumes after each match; so the tokens come in left-to-right
    order. (2) Every token returned has that shape, and the tokens occur in
    the text in that order, one after the other. (3) A timestamp present in
    the text is found: nothing is returned exactly when no substring of the
    text has the shape of a timestamp. (4) In every chunk [chunk_transcript]
    emits, [start_timestamp] is the first and [end_timestamp] the last
    timestamp of the chunk's text, and both are "00:00" when it has none.
    (5) A chunk whose text has the timestamps [01:20] and [03:45], in this
    order and no timestamp elsewhere, gets [start_timestamp = "01:20"] and
    [end_timestamp = "03:45"]. *)
Theorem timestamps_first_and_last :
  (forall text : str,
      TextProcessor.extract_timestamps text = spec_timestamps text) /\
  (forall text : str,
      Forall (fun t => is_timestamp t = true)
        (TextProcessor.extract_timestamps text) /\
      occur_in_order (TextProcessor.extract_timestamps text) text) /\
  (forall text : str,
      (TextProcessor.extract_timestamps text = [] <->
       forall pre tok post, text = pre ++ tok ++ post -> is_timestamp tok = false) /\
      (TextProcessor.extract_timestamps text = [] <-> has_timestamp text = false)) /\
  (forall fuel self transcript chunks chunk,
      ChunkingAgent.chunk_transcript fuel self transcript = Some chunks ->
      In chunk chunks ->
      match spec_timestamps (Chunk.text chunk) with
      | [] =>
          Chunk.start_timestamp chunk = lit "00:00" /\
          Chunk.end_timestamp chunk = lit "00:00"
      | t0 :: ts =>
          Chunk.start_timestamp chunk = t0 /\
          exists front, t0 :: ts = front ++ [Chunk.end_timestamp chunk]
      end) /\
  (forall idx a b c,
      has_timestamp a = false ->
      has_timestamp b = false ->
      has_timestamp c = false ->
      let chunk :=
        ChunkingAgent.with_metadata idx (a ++ lit "[01:20]" ++ b ++ lit "[03:45]" ++ c) in
      Chunk.start_timestamp chunk = lit "01:20" /\
      Chunk.end_timestamp chunk = lit "03:45").
Proof.
  assert (Hspec : forall text,
             TextProcessor.extract_timestamps text = spec_timestamps text).
  { intros text. symmetry. apply StampFacts.spec_scan_extract. lia. }
  split; [exact Hspec|]. split; [|split; [|split]].
  - intros text. apply (TimestampFacts.extract_upto (length text)). lia.
  - intros text. split; [|apply StampFacts.extract_nil_iff].
    rewrite StampFacts.extract_nil_iff. split.
    + intros Hno pre tok post E.
      destruct (is_timestamp tok) eqn:Ht; [|reflexivity].
      assert (Hyes : has_timestamp text = true)
        by (apply StampFacts.has_timestamp_iff; exists pre, tok, post; split; assumption).
      congruence.
    + intros Hall. destruct (has_timestamp text) eqn:Hh; [|reflexivity].
      apply StampFacts.has_timestamp_iff in Hh as (pre & tok & post & E & Ht).
      rewrite (Hall pre tok post E) in Ht. discriminate.
  - intros fuel self transcript chunks chunk Hsome Hin.
    unfold ChunkingAgent.chunk_transcript in Hsome.
    destruct (TextProcessor.split_into_chunks _ _ _ _) as [texts|];
      [|discriminate].
    injection Hsome as <-.
    apply TimestampFacts.add_metadata_In in Hin as [[] | (i & t & _ & ->)].
    unfold ChunkingAgent.with_metadata. cbn [Chunk.text Chunk.start_timestamp Chunk.end_timestamp].
    rewrite <- Hspec.
    destruct (TextProcessor.extract_timestamps t) as [|t0 ts]; [split; reflexivity|].
    split; [reflexivity | apply TimestampFacts.last_or_sentinel_last].
  - intros idx a b c Ha Hb Hc. cbv zeta.
    unfold ChunkingAgent.with_metadata. cbn [Chunk.start_timestamp Chunk.end_timestamp].
    rewrite (StampFacts.extract_two_stamps a b c Ha Hb Hc). split; reflexivity.
Qed.

Lemma timestamps_first_and_last_witness :
  (let chunk :=
     ChunkingAgent.with_metadata 0 (lit "Top 5 tips [01:20] foo 2020 [03:45] bar 7") in
   Chunk.start_timestamp chunk = lit "01:20" /\ Chunk.end_timestamp chunk = lit "03:45") /\
  TextProcessor.extract_timestamps (lit "[1:23] a (12:34:56) b 7:05")
  = [lit "1:23"; lit "12:34:56"; lit "7:05"] /\
  ChunkingAgent.chunk_transcript 0 ChunkingAgent.default (lit "no stamps here")
  = Some [Chunk.mk 1 (lit "no stamps here") (lit "00:00") (lit "00:00") 14] /\
  match spec_timestamps (lit "no stamps here") with
  | [] => lit "00:00" = lit "00:00" /\ lit "00:00" = lit "00:00"
  | t0 :: ts => lit "00:00" = t0 /\ exists front, t0 :: ts = front ++ [lit "00:00"]
  end.
Proof.
  destruct timestamps_first_and_last as (Hspec & _ & _ & Hchunks & Hscenario).
  split; [|split; [|split]].
  - apply (Hscenario 0 (lit "Top 5 tips ") (lit " foo 2020 ") (lit " bar 7"));
      reflexivity.
  - rewrite (Hspec (lit "[1:23] a (12:34:56) b 7:05")). reflexivity.
  - reflexivity.
  - apply (Hchunks 0%nat ChunkingAgent.default (lit "no stamps here")
             [Chunk.mk 1 (lit "no stamps here") (lit "00:00") (lit "00:00") 14]
             (Chunk.mk 1 (lit "no stamps here") (lit "00:00") (lit "00:00") 14));
      [reflexivity | left; reflexivity].
Defined.

(** ** [chunk_transcript] *)

Module ChunkFacts.
Import TextProcessor.

(** With the default sizes [chunk_transcript] returns for every transcript. *)
Lemma chunk_transcript_default_returns transcript :
  exists chunks,
    forall fuel, (length (clean_text transcript) <= fuel)%nat ->
      ChunkingAgent.chunk_transcript fuel ChunkingAgent.default transcript
      = Some chunks.
Proof.
  destruct (SplitFacts.split_into_chunks_terminates (clean_text transcript)
              4000 200 ltac:(lia) ltac:(lia)) as [texts Ht].
  exists (ChunkingAgent.add_metadata 0 texts []). intros fuel Hf.
  unfold ChunkingAgent.chunk_transcript. cbn [ChunkingAgent.default
    ChunkingAgent.init ChunkingAgent.max_chunk_size ChunkingAgent.overlap].
  rewrite (Ht fuel Hf). reflexivity.
Qed.

(** A transcript that does not clean to the empty text gives chunks whose
    [text] is not empty. *)
Lemma chunk_text_nonempty fuel self transcript chunks chunk :
  clean_text transcript <> [] ->
  ChunkingAgent.chunk_transcript fuel self transcript = Some chunks ->
  In chunk chunks -> Chunk.text chunk <> [].
Proof.
  intros Hclean Hsome Hin. unfold ChunkingAgent.chunk_transcript in Hsome.
  destruct (split_into_chunks _ _ _ _) as [texts|] eqn:E; [|discriminate].
  injection Hsome as <-.
  apply TimestampFacts.add_metadata_In in Hin as [[] | (i & t & Ht & ->)].
  pose proof (SplitFacts.split_into_chunks_nonempty _ _ _ _ _ Hclean E) as Hall.
  rewrite List.Forall_forall in Hall. apply (Hall t Ht).
Qed.

End ChunkFacts.

(** ** More on [clean_text] *)

Module CleanMore.
Import Re ReFacts TextProcessor CleanFacts.

Lemma visible_cons c s :
  visible (c :: s) = if is_space c then visible s else c :: visible s.
Proof. unfold visible. simpl. destruct (is_space c); reflexivity. Qed.

Lemma visible_app a b : visible (a ++ b) = visible a ++ visible b.
Proof. apply List.filter_app. Qed.

Lemma visible_rev s : visible (rev s) = rev (visible s).
Proof.
  unfold visible. induction s as [|c s IH]; [reflexivity|].
  simpl. rewrite List.filter_app, IH. simpl.
  destruct (negb (is_space c)); simpl; [reflexivity | apply app_nil_r].
Qed.

Lemma visible_lstrip s : visible (lstrip s) = visible s.
Proof.
  induction s as [|c s IH]; [reflexivity|]. simpl.
  destruct (is_space c) eqn:E; [|simpl; rewrite E; reflexivity].
  simpl. exact IH.
Qed.

Lemma visible_strip s : visible (strip s) = visible s.
Proof.
  unfold strip, rstrip.
  rewrite visible_rev, visible_lstrip, visible_rev, rev_involutive.
  apply visible_lstrip.
Qed.

Lemma visible_sub_ws_upto n : forall s,
  (length s <= n)%nat -> visible (Re.sub ws_run [space] s) = visible s.
Proof.
  induction n as [|n IH]; intros [|c s] Hl; try reflexivity;
    simpl in Hl; [lia|].
  rewrite sub_ws_cons, (visible_cons c s). destruct (is_space c) eqn:E.
  - rewrite visible_cons, space_is_space.
    rewrite IH by (pose proof (lstrip_length s); lia). apply visible_lstrip.
  - rewrite visible_cons, E, IH by lia. reflexivity.
Qed.

Lemma visible_clean_text s : visible (clean_text s) = visible s.
Proof.
  rewrite clean_text_eq, visible_strip.
  apply (visible_sub_ws_upto (length s)). lia.
Qed.

Lemma rstrip_length s : (length (rstrip s) <= length s)%nat.
Proof.
  unfold rstrip. rewrite length_rev.
  pose proof (lstrip_length (rev s)) as H. rewrite length_rev in H. exact H.
Qed.

Lemma strip_length s : (length (strip s) <= length s)%nat.
Proof.
  unfold strip. pose proof (rstrip_length (lstrip s)). pose proof (lstrip_length s).
  lia.
Qed.

Lemma sub_ws_length_upto n : forall s,
  (length s <= n)%nat -> (length (Re.sub ws_run [space] s) <= length s)%nat.
Proof.
  induction n as [|n IH]; intros [|c s] Hl; simpl in Hl; try lia;
    try (simpl; lia).
  rewrite sub_ws_cons. pose proof (lstrip_length s).
  destruct (is_space c); simpl.
  - pose proof (IH (lstrip s) ltac:(lia)). lia.
  - pose proof (IH s ltac:(lia)). lia.
Qed.

Lemma clean_text_length s : (length (clean_text s) <= length s)%nat.
Proof.
  rewrite clean_text_eq.
  pose proof (strip_length (Re.sub ws_run [space] s)).
  pose proof (sub_ws_length_upto (length s) s ltac:(lia)). lia.
Qed.

(** In a squeezed text a whitespace character is a space ... *)
Lemma squeezed_spaces s c :
  squeezed s = true -> In c s -> is_space c = true -> c = space.
Proof.
  induction s as [|c0 s IH]; [intros _ []|].
  cbn [squeezed]. intros Hs [-> | Hin] Hc.
  - apply andb_true_iff in Hs as [Hs _]. rewrite Hc in Hs.
    apply andb_true_iff in Hs as [Hs _]. apply Ascii.eqb_eq, Hs.
  - apply andb_true_iff in Hs as [_ Hs]. exact (IH Hs Hin Hc).
Qed.

(** ... that no whitespace character follows. *)
Lemma squeezed_no_run pre c d post :
  squeezed (pre ++ c :: d :: post) = true -> is_space c = true ->
  is_space d = false.
Proof.
  intros Hs Hc. apply squeezed_app_r in Hs. cbn [squeezed] in Hs.
  apply andb_true_iff in Hs as [Hs _]. rewrite Hc in Hs.
  apply andb_true_iff in Hs as [_ Hs]. apply negb_true_iff in Hs. exact Hs.
Qed.

Lemma strip_starts s : starts_space (strip s) = false.
Proof. unfold strip. apply rstrip_starts, lstrip_starts. Qed.

Lemma strip_ends s : starts_space (rev (strip s)) = false.
Proof.
  unfold strip, rstrip. rewrite rev_involutive. apply lstrip_starts.
Qed.

Lemma visible_nil_all_space s : visible s = [] <-> forallb is_space s = true.
Proof.
  unfold visible. induction s as [|c s IH]; [split; reflexivity|].
  simpl. destruct (is_space c); simpl; [exact IH|].
  split; discriminate.
Qed.

Lemma starts_visible s : s <> [] -> starts_space s = false -> visible s <> [].
Proof.
  destruct s as [|c s]; [congruence|]. simpl. intros _ Hc.
  unfold visible. simpl. rewrite Hc. discriminate.
Qed.

Lemma clean_text_nil s : clean_text s = [] <-> forallb is_space s = true.
Proof.
  rewrite <- visible_nil_all_space, <- visible_clean_text. split.
  - intros ->. reflexivity.
  - intros Hv. destruct (clean_text s) as [|c t] eqn:E; [reflexivity|].
    exfalso. apply (starts_visible (c :: t)); [discriminate | | exact Hv].
    rewrite <- E, clean_text_eq. apply strip_starts.
Qed.

End CleanMore.

(** X1. The text [clean_text] returns is normalised: each of its whitespace
    characters is a space (U+0020), no whitespace character follows another,
    and it neither starts nor ends with whitespace. *)
Theorem clean_text_normalised (x : str) :
  (forall c, In c (TextProcessor.clean_text x) -> is_space c = true -> c = space) /\
  (forall pre c d post,
      TextProcessor.clean_text x = pre ++ c :: d :: post ->
      is_space c = true -> is_space d = false) /\
  starts_space (TextProcessor.clean_text x) = false /\
  starts_space (rev (TextProcessor.clean_text x)) = false.
Proof.
  pose proof (CleanFacts.clean_text_squeezed x) as Hs.
  split; [|split; [|split]].
  - intros c. apply CleanMore.squeezed_spaces, Hs.
  - intros pre c d post E. rewrite E in Hs. exact (CleanMore.squeezed_no_run _ _ _ _ Hs).
  - rewrite CleanFacts.clean_text_eq. apply CleanMore.strip_starts.
  - rewrite CleanFacts.clean_text_eq. apply CleanMore.strip_ends.
Qed.

Lemma clean_text_normalised_witness :
  TextProcessor.clean_text (lit "  a 	 b

 c ") = lit "a b c" /\
  starts_space (TextProcessor.clean_text (lit "  a 	 b

 c ")) = false.
Proof.
  split; [reflexivity|].
  apply (clean_text_normalised (lit "  a 	 b

 c ")).
Defined.

(** X2. [clean_text] touches whitespace only: the characters that are not
    whitespace are the same, in the same order, before and after, and the
    result is never longer than the input. *)
Theorem clean_text_keeps_visible (x : str) :
  visible (TextProcessor.clean_text x) = visible x /\
  (length (TextProcessor.clean_text x) <= length x)%nat.
Proof.
  split; [apply CleanMore.visible_clean_text | apply CleanMore.clean_text_length].
Qed.

(** X3. [clean_text] returns the empty text exactly for the inputs made of
    whitespace only (the empty input among them). *)
Theorem clean_text_empty_iff (x : str) :
  TextProcessor.clean_text x = [] <-> forallb is_space x = true.
Proof. apply CleanMore.clean_text_nil. Qed.

Lemma clean_text_empty_iff_witness :
  forallb is_space (lit " 	
 ") = true /\ TextProcessor.clean_text (lit " 	
 ") = [].
Proof.
  split; [reflexivity|].
  apply (clean_text_empty_iff (lit " 	
 ")). reflexivity.
Defined.

(** ** More on [split_into_chunks] and [chunk_transcript] *)

Module SplitMore.
Import TextProcessor SplitFacts.

Lemma contains_trans (a b c : str) : contains a b -> contains b c -> contains a c.
Proof.
  intros (p1 & q1 & ->) (p2 & q2 & ->). exists (p2 ++ p1), (q1 ++ q2).
  rewrite <- !app_assoc. reflexivity.
Qed.

Lemma slice_contains s i j : contains (slice s i j) s.
Proof.
  unfold slice.
  set (a := Z.to_nat (adjust_index (len s) i)).
  set (n := Z.to_nat (adjust_index (len s) j - adjust_index (len s) i)).
  exists (take a s), (drop n (drop a s)).
  rewrite (take_drop n (drop a s)), (take_drop a s). reflexivity.
Qed.

Lemma strip_contains s : contains (strip s) s.
Proof.
  unfold strip. destruct (lstrip_suffix s) as [w Hw].
  destruct (rstrip_prefix (lstrip s)) as [w' Hw'].
  exists w, w'. rewrite <- Hw'. exact Hw.
Qed.

(** A slice from [i] to [j], with [0 <= i <= j], has at most [j - i]
    characters. *)
Lemma slice_length s i j :
  0 <= i <= j -> len (slice s i j) <= j - i.
Proof.
  intros Hij. unfold slice, len. rewrite length_take.
  pose proof (adjust_index_id (len s)) as Hid. unfold adjust_index.
  destruct (Z.ltb_spec i 0); destruct (Z.ltb_spec j 0); unfold len in *; lia.
Qed.

(** What a step appends, if anything, is a stripped slice of the text. *)
Lemma split_step_chunks text max_chunk_size overlap start chunks :
  (split_step text max_chunk_size overlap start chunks).2 = chunks \/
  exists end_ chunk,
    chunk = strip (slice text start end_) /\ chunk <> [] /\
    (split_step text max_chunk_size overlap start chunks).2 = chunks ++ [chunk].
Proof.
  unfold split_step. cbn [snd].
  match goal with |- context [strip (slice text start ?e)] =>
    destruct (strip (slice text start e)) as [|c chunk] eqn:E;
    [left; reflexivity | right; exists e, (c :: chunk)] end.
  rewrite E. repeat split. discriminate.
Qed.

(** An invariant of the chunks that stripped slices of the text keep is
    kept by the loop. *)
Lemma split_loop_invariant (Inv : str -> Prop) text max_chunk_size overlap :
  (forall i j, strip (slice text i j) <> [] -> Inv (strip (slice text i j))) ->
  forall fuel start chunks result,
    Forall Inv chunks ->
    split_loop fuel text max_chunk_size overlap start chunks = Some result ->
    Forall Inv result.
Proof.
  intros Hinv. induction fuel as [|fuel IH]; intros start chunks result Hall;
    cbn [split_loop]; destruct (start <? len text); try discriminate;
    try (intros [= <-]; exact Hall).
  pose proof (split_step_chunks text max_chunk_size overlap start chunks) as Hs.
  destruct (split_step text max_chunk_size overlap start chunks) as [start' chunks'].
  cbn [snd] in Hs. apply IH.
  destruct Hs as [-> | (e & chunk & -> & Hne & ->)]; [exact Hall|].
  apply Forall_app. split; [exact Hall|].
  constructor; [apply Hinv, Hne | constructor].
Qed.

(** Every chunk is a substring of the text. *)
Lemma split_contains fuel text max_chunk_size overlap result :
  split_into_chunks fuel text max_chunk_size overlap = Some result ->
  Forall (fun chunk => contains chunk text) result.
Proof.
  unfold split_into_chunks. destruct (len text <=? max_chunk_size).
  - intros [= <-]. constructor; [apply contains_refl | constructor].
  - apply split_loop_invariant; [|constructor].
    intros i j _. eapply contains_trans; [apply strip_contains | apply slice_contains].
Qed.

(** Every chunk of a stripped text is stripped. *)
Lemma split_stripped fuel text max_chunk_size overlap result :
  strip text = text ->
  split_into_chunks fuel text max_chunk_size overlap = Some result ->
  Forall (fun chunk => strip chunk = chunk) result.
Proof.
  intros Ht. unfold split_into_chunks. destruct (len text <=? max_chunk_size).
  - intros [= <-]. constructor; [exact Ht | constructor].
  - apply split_loop_invariant; [|constructor].
    intros i j _. apply strip_idem.
Qed.

(** With [overlap + 200 <= max_chunk_size] the window of a step that starts
    inside the text is at most [max_chunk_size] long. *)
Lemma split_step_bounded text max_chunk_size overlap start chunks :
  0 <= overlap -> overlap + 200 <= max_chunk_size ->
  0 <= start < len text ->
  Forall (fun chunk => len chunk <= max_chunk_size) chunks ->
  Forall (fun chunk => len chunk <= max_chunk_size)
    (split_step text max_chunk_size overlap start chunks).2.
Proof.
  intros Ho Hm Hs Hall. unfold split_step. cbn [snd].
  set (end0 := start + max_chunk_size).
  set (search_start := Z.max (end0 - 200) start).
  set (r1 := rfind text (lit ". ") search_start end0).
  set (r2 := rfind text (lit "! ") search_start end0).
  set (r3 := rfind text (lit "? ") search_start end0).
  set (end_ := if end0 <? len text
               then if Z.max (Z.max r1 r2) r3 >? start
                    then Z.max (Z.max r1 r2) r3 + 1 else end0
               else end0).
  assert (Hend : start <= end_ <= start + max_chunk_size).
  { subst end_. destruct (Z.ltb_spec end0 (len text)) as [Hlt|]; [|lia].
    destruct (Z.gtb_spec (Z.max (Z.max r1 r2) r3) start); [|lia].
    pose proof (rfind_bounds text (lit ". ") search_start end0) as H1.
    pose proof (rfind_bounds text (lit "! ") search_start end0) as H2.
    pose proof (rfind_bounds text (lit "? ") search_start end0) as H3.
    rewrite (adjust_index_id (len text) end0) in H1, H2, H3 by lia.
    change (len (lit ". ")) with 2 in H1. change (len (lit "! ")) with 2 in H2.
    change (len (lit "? ")) with 2 in H3. fold r1 in H1. fold r2 in H2.
    fold r3 in H3. lia. }
  pose proof (slice_length text start end_ ltac:(lia)) as Hsl.
  pose proof (CleanMore.strip_length (slice text start end_)) as Hst.
  destruct (strip (slice text start end_)) as [|c chunk] eqn:E; [exact Hall|].
  apply Forall_app. split; [exact Hall|].
  constructor; [|constructor]. unfold len in *. lia.
Qed.

Lemma split_loop_bounded text max_chunk_size overlap :
  0 <= overlap -> overlap + 200 <= max_chunk_size ->
  forall fuel start chunks result,
    0 <= start ->
    Forall (fun chunk => len chunk <= max_chunk_size) chunks ->
    split_loop fuel text max_chunk_size overlap start chunks = Some result ->
    Forall (fun chunk => len chunk <= max_chunk_size) result.
Proof.
  intros Ho Hm. induction fuel as [|fuel IH]; intros start chunks result Hs Hall;
    cbn [split_loop]; destruct (Z.ltb_spec start (len text)); try discriminate;
    try (intros [= <-]; exact Hall).
  pose proof (split_step_bounded text max_chunk_size overlap start chunks
                Ho Hm ltac:(lia) Hall) as Hb.
  pose proof (split_step_progress text max_chunk_size overlap start chunks
                Ho Hm ltac:(lia)) as Hp.
  destruct (split_step text max_chunk_size overlap start chunks) as [start' chunks'].
  cbn [fst snd] in *. apply IH; [lia | exact Hb].
Qed.

Lemma split_bounded fuel text max_chunk_size overlap result :
  0 <= overlap -> overlap + 200 <= max_chunk_size ->
  split_into_chunks fuel text max_chunk_size overlap = Some result ->
  Forall (fun chunk => len chunk <= max_chunk_size) result.
Proof.
  intros Ho Hm. unfold split_into_chunks.
  destruct (Z.leb_spec (len text) max_chunk_size).
  - intros [= <-]. constructor; [assumption | constructor].
  - apply split_loop_bounded; try assumption; [lia | constructor].
Qed.

End SplitMore.

Module ChunkMore.
Import TextProcessor SplitFacts SplitMore.

(** [add_metadata] without its accumulator: the chunk at position [i] of the
    enumeration is [with_metadata (idx + i)] of the text at that position. *)
Lemma add_metadata_eq texts : forall idx chunk_data,
  ChunkingAgent.add_metadata idx texts chunk_data
  = chunk_data ++ imap (fun i t => ChunkingAgent.with_metadata (idx + Z.of_nat i) t) texts.
Proof.
  induction texts as [|t texts IH]; intros idx acc; simpl.
  - rewrite app_nil_r. reflexivity.
  - rewrite IH, <- app_assoc. simpl. rewrite Z.add_0_r. do 2 f_equal.
    apply imap_ext. intros i x _. simpl. f_equal. lia.
Qed.

Lemma chunk_transcript_eq fuel self transcript chunks :
  ChunkingAgent.chunk_transcript fuel self transcript = Some chunks ->
  exists texts,
    split_into_chunks fuel (clean_text transcript)
      (ChunkingAgent.max_chunk_size self) (ChunkingAgent.overlap self) = Some texts /\
    chunks = imap (fun i t => ChunkingAgent.with_metadata (Z.of_nat i) t) texts.
Proof.
  unfold ChunkingAgent.chunk_transcript.
  destruct (split_into_chunks _ _ _ _) as [texts|]; [|discriminate].
  intros [= <-]. exists texts. split; [reflexivity|].
  rewrite add_metadata_eq. reflexivity.
Qed.

Lemma chunk_lookup texts (i : nat) chunk :
  imap (fun i t => ChunkingAgent.with_metadata (Z.of_nat i) t) texts !! i = Some chunk ->
  exists t, texts !! i = Some t /\ chunk = ChunkingAgent.with_metadata (Z.of_nat i) t.
Proof.
  rewrite list_lookup_imap. destruct (texts !! i) as [t|]; [|discriminate].
  intros [= <-]. exists t. split; reflexivity.
Qed.

Lemma chunk_In texts chunk :
  In chunk (imap (fun i t => ChunkingAgent.with_metadata (Z.of_nat i) t) texts) ->
  In (Chunk.text chunk) texts.
Proof.
  rewrite <- list_elem_of_In. intros Hin.
  apply list_elem_of_lookup in Hin as [i Hi].
  apply chunk_lookup in Hi as (t & Ht & ->).
  rewrite <- list_elem_of_In. apply list_elem_of_lookup. exists i. exact Ht.
Qed.

(** The loop only appends. *)
Lemma split_loop_extends text max_chunk_size overlap fuel :
  forall start chunks result,
    split_loop fuel text max_chunk_size overlap start chunks = Some result ->
    exists more, result = chunks ++ more.
Proof.
  induction fuel as [|fuel IH]; intros start chunks result;
    cbn [split_loop]; destruct (start <? len text); try discriminate;
    try (intros [= <-]; exists []; rewrite app_nil_r; reflexivity).
  pose proof (split_step_chunks text max_chunk_size overlap start chunks) as Hs.
  destruct (split_step text max_chunk_size overlap start chunks) as [start' chunks'].
  cbn [snd] in Hs. intros Hr. destruct (IH _ _ _ Hr) as [more ->].
  destruct Hs as [-> | (e & chunk & _ & _ & ->)]; [exists more; reflexivity|].
  exists (chunk :: more). rewrite <- app_assoc. reflexivity.
Qed.

Lemma slice_from_0 text end_ :
  0 < end_ -> text <> [] ->
  exists c rest, text = c :: rest /\ exists tl, slice text 0 end_ = c :: tl.
Proof.
  intros He Ht. destruct text as [|c rest]; [congruence|].
  exists c, rest. split; [reflexivity|]. unfold slice.
  rewrite (adjust_index_id _ 0) by (unfold len; simpl; lia). simpl drop.
  assert (Hpos : 0 < adjust_index (len (c :: rest)) end_ - 0).
  { unfold adjust_index, len. simpl length.
    destruct (Z.ltb_spec end_ 0); lia. }
  destruct (Z.to_nat (adjust_index (len (c :: rest)) end_ - 0)) eqn:E; [lia|].
  simpl. eexists. reflexivity.
Qed.

(** With [overlap + 200 <= max_chunk_size], the first step on a text that
    starts with a character that is not whitespace appends a chunk. *)
Lemma first_step_appends text max_chunk_size overlap :
  0 <= overlap -> overlap + 200 <= max_chunk_size ->
  text <> [] -> starts_space text = false ->
  (split_step text max_chunk_size overlap 0 []).2 <> [].
Proof.
  intros Ho Hm Ht Hs. unfold split_step. cbn [snd].
  match goal with |- context [strip (slice text 0 ?e)] => set (end_ := e) end.
  assert (Hend : 0 < end_).
  { subst end_. destruct (0 + max_chunk_size <? len text); [|lia].
    match goal with |- context [?m >? 0] => destruct (Z.gtb_spec m 0) end; lia. }
  destruct (slice_from_0 text end_ Hend Ht) as (c & rest & -> & tl & Hsl).
  simpl in Hs.
  assert (Hv : visible (strip (slice (c :: rest) 0 end_)) <> []).
  { rewrite CleanMore.visible_strip, Hsl, CleanMore.visible_cons, Hs. discriminate. }
  destruct (strip (slice (c :: rest) 0 end_)); [contradiction Hv; reflexivity|].
  discriminate.
Qed.

(** So with such sizes a text that is not empty and starts with a character
    that is not whitespace has at least one chunk. *)
Lemma split_some_chunk fuel text max_chunk_size overlap result :
  0 <= overlap -> overlap + 200 <= max_chunk_size ->
  text <> [] -> starts_space text = false ->
  split_into_chunks fuel text max_chunk_size overlap = Some result ->
  result <> [].
Proof.
  intros Ho Hm Ht Hs. unfold split_into_chunks.
  destruct (len text <=? max_chunk_size); [intros [= <-]; discriminate|].
  destruct fuel as [|fuel]; cbn [split_loop];
    destruct (Z.ltb_spec 0 (len text)) as [_|Hl];
    try discriminate;
    try (destruct text; [congruence | unfold len in Hl; simpl in Hl; lia]).
  pose proof (first_step_appends text max_chunk_size overlap Ho Hm Ht Hs) as Hf.
  destruct (split_step text max_chunk_size overlap 0 []) as [start' chunks'].
  cbn [snd] in Hf. intros Hr.
  destruct (split_loop_extends _ _ _ _ _ _ _ Hr) as [more ->].
  destruct chunks'; [congruence | discriminate].
Qed.

(** The sum of the loop of [get_chunk_summary] lies between [n * lo] and
    [n * hi] when each count lies between [lo] and [hi]. *)
Lemma sum_char_count_bounds lo hi chunks :
  Forall (fun chunk => lo <= Chunk.char_count chunk <= hi) chunks ->
  Z.of_nat (length chunks) * lo <= ChunkingAgent.sum_char_count chunks
  <= Z.of_nat (length chunks) * hi.
Proof.
  unfold ChunkingAgent.sum_char_count. intros Hall.
  assert (Hgen : forall acc,
             acc + Z.of_nat (length chunks) * lo
             <= fold_left (fun total chunk => total + Chunk.char_count chunk) chunks acc
             <= acc + Z.of_nat (length chunks) * hi).
  { induction Hall as [|chunk chunks Hc Hall IH]; intros acc; simpl fold_left.
    - simpl. lia.
    - specialize (IH (acc + Chunk.char_count chunk)).
      rewrite length_cons, Nat2Z.inj_succ. lia. }
  specialize (Hgen 0). lia.
Qed.

(** The sum of the counts of the chunks of [chunk_transcript] is the length
    of their texts, one after the other. *)
Lemma sum_char_count_concat chunks :
  Forall (fun chunk => Chunk.char_count chunk = len (Chunk.text chunk)) chunks ->
  ChunkingAgent.sum_char_count chunks = len (concat (map Chunk.text chunks)).
Proof.
  unfold ChunkingAgent.sum_char_count. intros Hall.
  assert (Hgen : forall acc,
             fold_left (fun total chunk => total + Chunk.char_count chunk) chunks acc
             = acc + len (concat (map Chunk.text chunks))).
  { induction Hall as [|chunk chunks Hc Hall IH]; intros acc; simpl.
    - unfold len. simpl. lia.
    - rewrite IH, Hc. unfold len. rewrite length_app. lia. }
  apply Hgen.
Qed.

End ChunkMore.

Module StatsFacts.
Import TextProcessor SplitFacts SplitMore ChunkMore.

Lemma chunk_of_text texts chunk :
  In chunk (imap (fun i t => ChunkingAgent.with_metadata (Z.of_nat i) t) texts) ->
  In (Chunk.text chunk) texts /\
  Chunk.char_count chunk = len (Chunk.text chunk).
Proof.
  intros Hin. split; [apply chunk_In, Hin|].
  rewrite <- list_elem_of_In in Hin.
  apply list_elem_of_lookup in Hin as [i Hi].
  apply chunk_lookup in Hi as (t & _ & ->). reflexivity.
Qed.

(** A transcript with a character that is not whitespace cleans to a text
    that is not empty and starts with such a character. *)
Lemma clean_text_visible transcript :
  forallb is_space transcript = false ->
  clean_text transcript <> [] /\ starts_space (clean_text transcript) = false.
Proof.
  intros Hv. split.
  - intros E. apply CleanMore.clean_text_nil in E. congruence.
  - rewrite CleanFacts.clean_text_eq. apply CleanMore.strip_starts.
Qed.

Lemma chunk_bounded fuel self transcript chunks chunk :
  0 <= ChunkingAgent.overlap self ->
  ChunkingAgent.overlap self + 200 <= ChunkingAgent.max_chunk_size self ->
  ChunkingAgent.chunk_transcript fuel self transcript = Some chunks ->
  In chunk chunks ->
  len (Chunk.text chunk) <= ChunkingAgent.max_chunk_size self /\
  Chunk.char_count chunk <= ChunkingAgent.max_chunk_size self.
Proof.
  intros Ho Hm Hsome Hin.
  destruct (chunk_transcript_eq _ _ _ _ Hsome) as (texts & Hsplit & ->).
  apply chunk_of_text in Hin as [Hin Hcount].
  pose proof (split_bounded _ _ _ _ _ Ho Hm Hsplit) as Hb.
  rewrite List.Forall_forall in Hb. specialize (Hb _ Hin).
  rewrite Hcount. split; exact Hb.
Qed.

Lemma chunk_nonempty fuel self transcript chunks chunk :
  forallb is_space transcript = false ->
  ChunkingAgent.chunk_transcript fuel self transcript = Some chunks ->
  In chunk chunks ->
  Chunk.text chunk <> [] /\ 1 <= Chunk.char_count chunk.
Proof.
  intros Hv Hsome Hin.
  destruct (clean_text_visible transcript Hv) as [Hne _].
  destruct (chunk_transcript_eq _ _ _ _ Hsome) as (texts & Hsplit & ->).
  apply chunk_of_text in Hin as [Hin Hcount].
  pose proof (split_into_chunks_nonempty _ _ _ _ _ Hne Hsplit) as Hall.
  rewrite List.Forall_forall in Hall. specialize (Hall _ Hin).
  split; [exact Hall|]. rewrite Hcount.
  destruct (Chunk.text chunk); [congruence | unfold len; simpl; lia].
Qed.

End StatsFacts.

(** X4. The chunks [chunk_transcript] emits are the texts [split_into_chunks]
    returns for the cleaned transcript, in the same order and number: the
    chunk at index [i] has [chunk_id = i + 1] (so the ids are 1, 2, ..., n),
    the text at index [i], and [char_count = len(text)]. *)
Theorem chunk_records_consistent (fuel : nat) (self : ChunkingAgent.t)
  (transcript : str) (chunks : list Chunk.t) :
  ChunkingAgent.chunk_transcript fuel self transcript = Some chunks ->
  exists texts,
    TextProcessor.split_into_chunks fuel (TextProcessor.clean_text transcript)
      (ChunkingAgent.max_chunk_size self) (ChunkingAgent.overlap self) = Some texts /\
    length chunks = length texts /\
    forall (i : nat) chunk,
      chunks !! i = Some chunk ->
      Chunk.chunk_id chunk = Z.of_nat i + 1 /\
      texts !! i = Some (Chunk.text chunk) /\
      Chunk.char_count chunk = len (Chunk.text chunk).
Proof.
  intros Hsome.
  destruct (ChunkMore.chunk_transcript_eq _ _ _ _ Hsome) as (texts & Hsplit & ->).
  exists texts. split; [exact Hsplit|]. split; [apply length_imap|].
  intros i chunk Hi. apply ChunkMore.chunk_lookup in Hi as (t & Ht & ->).
  repeat split. exact Ht.
Qed.

Lemma chunk_records_consistent_witness :
  ChunkingAgent.chunk_transcript 5 (ChunkingAgent.init 200 0) Samples.two_sentences
  = Some [Chunk.mk 1 Samples.first_sentence (lit "00:00") (lit "00:00") 191;
          Chunk.mk 2 Samples.second_sentence (lit "00:00") (lit "00:00") 100] /\
  exists texts,
    TextProcessor.split_into_chunks 5 (TextProcessor.clean_text Samples.two_sentences)
      200 0 = Some texts /\
    length texts = 2%nat.
Proof.
  assert (Hrun : ChunkingAgent.chunk_transcript 5 (ChunkingAgent.init 200 0)
                   Samples.two_sentences
                 = Some [Chunk.mk 1 Samples.first_sentence (lit "00:00") (lit "00:00") 191;
                         Chunk.mk 2 Samples.second_sentence (lit "00:00") (lit "00:00") 100])
    by (vm_compute; reflexivity).
  split; [exact Hrun|].
  destruct (chunk_records_consistent _ _ _ _ Hrun) as (texts & Hsplit & Hlen & _).
  exists texts. split; [exact Hsplit | symmetry; exact Hlen].
Defined.

(** X5. Every chunk text [chunk_transcript] emits is a substring of the
    cleaned transcript, taken verbatim, and has no whitespace at either
    end ([strip] leaves it unchanged). *)
Theorem chunk_text_verbatim (fuel : nat) (self : ChunkingAgent.t)
  (transcript : str) (chunks : list Chunk.t) (chunk : Chunk.t) :
  ChunkingAgent.chunk_transcript fuel self transcript = Some chunks ->
  In chunk chunks ->
  contains (Chunk.text chunk) (TextProcessor.clean_text transcript) /\
  strip (Chunk.text chunk) = Chunk.text chunk.
Proof.
  intros Hsome Hin.
  destruct (ChunkMore.chunk_transcript_eq _ _ _ _ Hsome) as (texts & Hsplit & ->).
  apply ChunkMore.chunk_In in Hin.
  pose proof (SplitMore.split_contains _ _ _ _ _ Hsplit) as Hc.
  assert (Hclean : strip (TextProcessor.clean_text transcript)
                   = TextProcessor.clean_text transcript)
    by (rewrite CleanFacts.clean_text_eq; apply strip_idem).
  pose proof (SplitMore.split_stripped _ _ _ _ _ Hclean Hsplit) as Hs.
  rewrite List.Forall_forall in Hc, Hs. split; [apply Hc | apply Hs]; exact Hin.
Qed.

Lemma chunk_text_verbatim_witness :
  contains Samples.second_sentence (TextProcessor.clean_text Samples.two_sentences) /\
  strip Samples.second_sentence = Samples.second_sentence.
Proof.
  apply (chunk_text_verbatim 5 (ChunkingAgent.init 200 0) Samples.two_sentences
           [Chunk.mk 1 Samples.first_sentence (lit "00:00") (lit "00:00") 191;
            Chunk.mk 2 Samples.second_sentence (lit "00:00") (lit "00:00") 100]
           (Chunk.mk 2 Samples.second_sentence (lit "00:00") (lit "00:00") 100)).
  - vm_compute. reflexivity.
  - right. left. reflexivity.
Defined.

(** X6. When [0 <= overlap] and [overlap + 200 <= max_chunk_size] (as with
    the default sizes 4000 and 200), no chunk is longer than
    [max_chunk_size]: for every chunk of [chunk_transcript],
    [len(text) <= max_chunk_size] and [char_count <= max_chunk_size]. *)
Theorem chunk_size_bounded (fuel : nat) (self : ChunkingAgent.t)
  (transcript : str) (chunks : list Chunk.t) (chunk : Chunk.t) :
  0 <= ChunkingAgent.overlap self ->
  ChunkingAgent.overlap self + 200 <= ChunkingAgent.max_chunk_size self ->
  ChunkingAgent.chunk_transcript fuel self transcript = Some chunks ->
  In chunk chunks ->
  len (Chunk.text chunk) <= ChunkingAgent.max_chunk_size self /\
  Chunk.char_count chunk <= ChunkingAgent.max_chunk_size self.
Proof. apply StatsFacts.chunk_bounded. Qed.

Lemma chunk_size_bounded_witness :
  0 <= 0 /\ 0 + 200 <= 200 /\
  len Samples.first_sentence <= 200 /\ 191 <= 200.
Proof.
  split; [lia|]. split; [lia|].
  apply (chunk_size_bounded 5 (ChunkingAgent.init 200 0) Samples.two_sentences
           [Chunk.mk 1 Samples.first_sentence (lit "00:00") (lit "00:00") 191;
            Chunk.mk 2 Samples.second_sentence (lit "00:00") (lit "00:00") 100]
           (Chunk.mk 1 Samples.first_sentence (lit "00:00") (lit "00:00") 191)).
  - simpl. lia.
  - simpl. lia.
  - vm_compute. reflexivity.
  - left. reflexivity.
Defined.

(** X7. For a transcript with at least one character that is not
    whitespace, whatever the sizes, no chunk [chunk_transcript] emits is
    empty: [text] is not empty and [char_count >= 1]. *)
Theorem chunks_of_visible_transcript_nonempty (fuel : nat) (self : ChunkingAgent.t)
  (transcript : str) (chunks : list Chunk.t) (chunk : Chunk.t) :
  forallb is_space transcript = false ->
  ChunkingAgent.chunk_transcript fuel self transcript = Some chunks ->
  In chunk chunks ->
  Chunk.text chunk <> [] /\ 1 <= Chunk.char_count chunk.
Proof. apply StatsFacts.chunk_nonempty. Qed.

Lemma chunks_of_visible_transcript_nonempty_witness :
  forallb is_space (lit " ab ") = false /\
  lit "ab" <> [] /\ 1 <= 2.
Proof.
  split; [reflexivity|].
  apply (chunks_of_visible_transcript_nonempty 0 (ChunkingAgent.init 5 7) (lit " ab ")
           [Chunk.mk 1 (lit "ab") (lit "00:00") (lit "00:00") 2]
           (Chunk.mk 1 (lit "ab") (lit "00:00") (lit "00:00") 2));
    [reflexivity | reflexivity | left; reflexivity].
Defined.

(** X8. When [0 <= overlap] and [overlap + 200 <= max_chunk_size] (as with
    the default sizes) [chunk_transcript] returns for every transcript:
    the loop of [split_into_chunks] ends within [len(cleaned transcript)]
    iterations, more fuel gives the same list, and the list always has at
    least one chunk. *)
Theorem chunk_transcript_returns (self : ChunkingAgent.t) (transcript : str) :
  0 <= ChunkingAgent.overlap self ->
  ChunkingAgent.overlap self + 200 <= ChunkingAgent.max_chunk_size self ->
  exists chunks,
    (forall fuel, (length (TextProcessor.clean_text transcript) <= fuel)%nat ->
       ChunkingAgent.chunk_transcript fuel self transcript = Some chunks) /\
    chunks <> [].
Proof.
  intros Ho Hm.
  destruct (SplitFacts.split_into_chunks_terminates
              (TextProcessor.clean_text transcript) _ _ Ho Hm) as [texts Ht].
  exists (ChunkingAgent.add_metadata 0 texts []). split.
  - intros fuel Hf. unfold ChunkingAgent.chunk_transcript.
    rewrite (Ht fuel Hf). reflexivity.
  - assert (Htexts : texts <> []).
    { destruct (forallb is_space transcript) eqn:Hv.
      - apply CleanMore.clean_text_nil in Hv.
        pose proof (Ht _ (Nat.le_refl _)) as Hrun.
        rewrite SplitFacts.split_short in Hrun by (rewrite Hv; unfold len; simpl; lia).
        injection Hrun as <-. discriminate.
      - destruct (StatsFacts.clean_text_visible transcript Hv) as [Hne Hst].
        exact (ChunkMore.split_some_chunk _ _ _ _ _ Ho Hm Hne Hst
                 (Ht _ (Nat.le_refl _))). }
    rewrite ChunkMore.add_metadata_eq. simpl.
    destruct texts; [congruence | discriminate].
Qed.

Lemma chunk_transcript_returns_witness :
  0 <= 200 /\ 200 + 200 <= 4000 /\
  exists chunks,
    (forall fuel, (length (TextProcessor.clean_text Samples.two_sentences) <= fuel)%nat ->
       ChunkingAgent.chunk_transcript fuel ChunkingAgent.default Samples.two_sentences
       = Some chunks) /\
    chunks <> [].
Proof.
  split; [lia|]. split; [lia|].
  apply (chunk_transcript_returns ChunkingAgent.default Samples.two_sentences);
    simpl; lia.
Defined.

(** X9. When [0 <= max_chunk_size <= overlap], an invalid configuration that
    nothing rejects, [chunk_transcript] never returns for a transcript whose
    cleaned text is longer than [max_chunk_size]: no window ever reaches the
    end of the text. *)
Theorem chunk_transcript_invalid_sizes_diverges (self : ChunkingAgent.t)
  (transcript : str) :
  0 <= ChunkingAgent.max_chunk_size self <= ChunkingAgent.overlap self ->
  ChunkingAgent.max_chunk_size self < len (TextProcessor.clean_text transcript) ->
  forall fuel, ChunkingAgent.chunk_transcript fuel self transcript = None.
Proof.
  intros Hm Hlong fuel. unfold ChunkingAgent.chunk_transcript.
  rewrite (SplitFacts.split_invalid_overlap_diverges _ _ _ Hm Hlong). reflexivity.
Qed.

Lemma chunk_transcript_invalid_sizes_diverges_witness :
  0 <= 2 <= 2 /\ 2 < len (TextProcessor.clean_text (lit "abcdef")) /\
  ChunkingAgent.chunk_transcript 1000 (ChunkingAgent.init 2 2) (lit "abcdef") = None.
Proof.
  split; [lia|]. split; [vm_compute; reflexivity|].
  apply (chunk_transcript_invalid_sizes_diverges (ChunkingAgent.init 2 2) (lit "abcdef"));
    [simpl; lia | vm_compute; reflexivity].
Defined.

(** X10. The statistics of [get_chunk_summary] for the chunks of a
    transcript with a character that is not whitespace, when [0 <= overlap]
    and [overlap + 200 <= max_chunk_size]: there is at least one chunk,
    [total_characters] is the length of the chunk texts put together, it
    lies between [total_chunks] and [total_chunks * max_chunk_size], and
    [avg_chunk_size] lies between 1 and [max_chunk_size]. *)
Theorem chunk_summary_bounds (fuel : nat) (self : ChunkingAgent.t)
  (transcript : str) (chunks : list Chunk.t) :
  0 <= ChunkingAgent.overlap self ->
  ChunkingAgent.overlap self + 200 <= ChunkingAgent.max_chunk_size self ->
  forallb is_space transcript = false ->
  ChunkingAgent.chunk_transcript fuel self transcript = Some chunks ->
  let stats := ChunkingAgent.get_chunk_summary chunks in
  1 <= ChunkStats.total_chunks stats /\
  ChunkStats.total_chunks stats = Z.of_nat (length chunks) /\
  ChunkStats.total_characters stats = len (concat (map Chunk.text chunks)) /\
  ChunkStats.total_chunks stats <= ChunkStats.total_characters stats
    <= ChunkStats.total_chunks stats * ChunkingAgent.max_chunk_size self /\
  1 <= ChunkStats.avg_chunk_size stats <= ChunkingAgent.max_chunk_size self.
Proof.
  intros Ho Hm Hv Hsome. cbv zeta.
  assert (Hall : Forall (fun chunk =>
                   1 <= Chunk.char_count chunk <= ChunkingAgent.max_chunk_size self)
                   chunks).
  { rewrite List.Forall_forall. intros chunk Hin. split.
    - apply (StatsFacts.chunk_nonempty fuel self transcript chunks chunk Hv Hsome Hin).
    - apply (StatsFacts.chunk_bounded fuel self transcript chunks chunk Ho Hm Hsome Hin). }
  assert (Hcount : Forall (fun chunk => Chunk.char_count chunk = len (Chunk.text chunk))
                     chunks).
  { destruct (ChunkMore.chunk_transcript_eq _ _ _ _ Hsome) as (texts & _ & ->).
    rewrite List.Forall_forall. intros chunk Hin.
    apply (StatsFacts.chunk_of_text texts chunk Hin). }
  assert (Hne : chunks <> []).
  { destruct (ChunkMore.chunk_transcript_eq _ _ _ _ Hsome) as (texts & Hsplit & ->).
    destruct (StatsFacts.clean_text_visible transcript Hv) as [Hc Hst].
    pose proof (ChunkMore.split_some_chunk _ _ _ _ _ Ho Hm Hc Hst Hsplit).
    destruct texts; [congruence | discriminate]. }
  pose proof (ChunkMore.sum_char_count_bounds _ _ _ Hall) as Hsum.
  pose proof (ChunkMore.sum_char_count_concat _ Hcount) as Hcat.
  unfold ChunkingAgent.get_chunk_summary.
  cbn [ChunkStats.total_chunks ChunkStats.total_characters ChunkStats.avg_chunk_size].
  destruct chunks as [|chunk0 rest]; [congruence|].
  set (n := Z.of_nat (length (chunk0 :: rest))) in *.
  assert (Hn : 1 <= n) by (subst n; rewrite length_cons; lia).
  split; [exact Hn|]. split; [reflexivity|]. split; [exact Hcat|].
  split; [lia|]. split.
  - apply Z.div_le_lower_bound; lia.
  - apply Z.div_le_upper_bound; lia.
Qed.

Lemma chunk_summary_bounds_witness :
  0 <= 0 /\ 0 + 200 <= 200 /\ forallb is_space Samples.two_sentences = false /\
  ChunkingAgent.get_chunk_summary
    [Chunk.mk 1 Samples.first_sentence (lit "00:00") (lit "00:00") 191;
     Chunk.mk 2 Samples.second_sentence (lit "00:00") (lit "00:00") 100]
  = ChunkStats.mk 2 291 145 (lit "00:00") (lit "00:00") /\
  1 <= 145 <= 200.
Proof.
  split; [lia|]. split; [lia|]. split; [reflexivity|]. split; [reflexivity|].
  apply (chunk_summary_bounds 5 (ChunkingAgent.init 200 0) Samples.two_sentences
           [Chunk.mk 1 Samples.first_sentence (lit "00:00") (lit "00:00") 191;
            Chunk.mk 2 Samples.second_sentence (lit "00:00") (lit "00:00") 100]);
    [simpl; lia | simpl; lia | reflexivity | vm_compute; reflexivity].
Defined.

(** ** More on timestamps and [format_duration] *)

Module TimestampMore.
Import Re ReFacts FindallFacts TextProcessor TimestampFacts.

Lemma no_digit_app a b : no_digit (a ++ b) = no_digit a && no_digit b.
Proof. apply forallb_app. Qed.

Lemma no_digit_contains sub s : contains sub s -> no_digit s = true -> no_digit sub = true.
Proof.
  intros (pre & post & ->). rewrite !no_digit_app.
  intros H. apply andb_true_iff in H as [_ H]. apply andb_true_iff in H as [H _].
  exact H.
Qed.

(** A character of the cleaned text is a space or a character of the
    input. *)
Lemma clean_text_In x c : In c (clean_text x) -> c = space \/ In c x.
Proof.
  intros Hin. destruct (is_space c) eqn:E.
  - left. exact (CleanMore.squeezed_spaces _ _ (CleanFacts.clean_text_squeezed x) Hin E).
  - right.
    assert (Hv : In c (visible (clean_text x)))
      by (apply List.filter_In; split; [exact Hin | rewrite E; reflexivity]).
    rewrite CleanMore.visible_clean_text in Hv.
    apply List.filter_In in Hv as [Hv _]. exact Hv.
Qed.

Lemma clean_text_no_digit x : no_digit x = true -> no_digit (clean_text x) = true.
Proof.
  unfold no_digit. rewrite !forallb_forall. intros Hx c Hin.
  destruct (clean_text_In x c Hin) as [-> | Hc]; [reflexivity | apply Hx, Hc].
Qed.

(** [format_02d] of 0..99 is two digits. *)
Lemma format_02d_digits n :
  0 <= n < 100 ->
  exists a b, format_02d n = [a; b] /\ is_digit a = true /\ is_digit b = true.
Proof.
  intros Hn.
  assert (Hall : forallb (fun k => shape [is_digit; is_digit] (format_02d (Z.of_nat k)))
                   (seq 0 100) = true) by (vm_compute; reflexivity).
  rewrite forallb_forall in Hall.
  specialize (Hall (Z.to_nat n) ltac:(apply in_seq; lia)).
  rewrite Z2Nat.id in Hall by lia.
  destruct (format_02d n) as [|a [|b [|c t]]]; simpl in Hall; try discriminate.
  - rewrite andb_false_r in Hall. discriminate.
  - apply andb_true_iff in Hall as [Ha Hb]. rewrite andb_true_r in Hb.
    exists a, b. repeat split; assumption.
  - rewrite !andb_false_r in Hall. discriminate.
Qed.

Lemma digit_not_open a : is_digit a = true -> open_bracket a = false.
Proof.
  intros Ha. destruct (open_bracket a) eqn:E; [|reflexivity].
  unfold open_bracket, is_char in E. apply orb_true_iff in E as [E|E];
    apply Ascii.eqb_eq in E; subst a; discriminate Ha.
Qed.

Lemma is_colon : is_char colon colon = true.
Proof. reflexivity. Qed.

(** A text MM:SS is matched whole, and is the group. *)
Lemma match_mmss a b d e :
  is_digit a = true -> is_digit b = true -> is_digit d = true -> is_digit e = true ->
  match_at timestamp_pattern [a; b; colon; d; e] = Some ([], [[a; b; colon; d; e]]).
Proof.
  intros Ha Hb Hd He.
  unfold match_at, timestamp_pattern, timestamp_token, two_digits.
  cbn [run]. rewrite (digit_not_open a Ha), Ha, Hb, is_colon, Hd, He. reflexivity.
Qed.

(** A text HH:MM:SS is matched whole, and is the group. *)
Lemma match_hhmmss a b d e f g :
  is_digit a = true -> is_digit b = true -> is_digit d = true ->
  is_digit e = true -> is_digit f = true -> is_digit g = true ->
  match_at timestamp_pattern [a; b; colon; d; e; colon; f; g]
  = Some ([], [[a; b; colon; d; e; colon; f; g]]).
Proof.
  intros Ha Hb Hd He Hf Hg.
  unfold match_at, timestamp_pattern, timestamp_token, two_digits.
  cbn [run]. rewrite (digit_not_open a Ha), Ha, Hb, !is_colon, Hd, He, Hf, Hg.
  reflexivity.
Qed.

(** The two forms [format_duration] gives below 100 hours. *)
Lemma format_duration_form seconds :
  seconds < 360000 ->
  (seconds < 3600 /\
   exists a b d e,
     format_duration seconds = [a; b; colon; d; e] /\
     is_digit a = true /\ is_digit b = true /\
     is_digit d = true /\ is_digit e = true) \/
  (3600 <= seconds /\
   exists a b d e f g,
     format_duration seconds = [a; b; colon; d; e; colon; f; g] /\
     is_digit a = true /\ is_digit b = true /\ is_digit d = true /\
     is_digit e = true /\ is_digit f = true /\ is_digit g = true).
Proof.
  intros Hs. unfold format_duration.
  pose proof (Z.mod_pos_bound seconds 3600 ltac:(lia)) as Hm.
  pose proof (Z.mod_pos_bound seconds 60 ltac:(lia)) as Hsec.
  assert (Hmin : 0 <= seconds mod 3600 / 60 < 100).
  { split; [apply Z.div_pos; lia|].
    apply Z.div_lt_upper_bound; lia. }
  destruct (format_02d_digits _ Hmin) as (d & e & -> & Hd & He).
  destruct (format_02d_digits (seconds mod 60) ltac:(lia)) as (f & g & -> & Hf & Hg).
  destruct (Z.gtb_spec (seconds / 3600) 0) as [Hh|Hh].
  - right.
    assert (Hge : 3600 <= seconds).
    { destruct (Z.lt_ge_cases seconds 3600) as [Hlt|]; [|assumption].
      assert (seconds / 3600 <= 0); [|lia].
      apply Z.lt_succ_r. apply Z.div_lt_upper_bound; lia. }
    split; [exact Hge|].
    assert (Hhr : 0 <= seconds / 3600 < 100).
    { split; [lia|]. apply Z.div_lt_upper_bound; lia. }
    destruct (format_02d_digits _ Hhr) as (a & b & -> & Ha & Hb).
    exists a, b, d, e, f, g. repeat split; assumption.
  - left.
    assert (Hlt : seconds < 3600).
    { destruct (Z.lt_ge_cases seconds 3600) as [|Hge]; [assumption|].
      assert (1 <= seconds / 3600); [|lia].
      apply Z.div_le_lower_bound; lia. }
    split; [exact Hlt|]. exists d, e, f, g. repeat split; assumption.
Qed.

End TimestampMore.

(** X11. A transcript without any digit has no timestamp: every chunk
    [chunk_transcript] emits for it has [start_timestamp] and
    [end_timestamp] equal to the sentinel "00:00". *)
Theorem chunks_without_digits_get_sentinel (fuel : nat) (self : ChunkingAgent.t)
  (transcript : str) (chunks : list Chunk.t) (chunk : Chunk.t) :
  no_digit transcript = true ->
  ChunkingAgent.chunk_transcript fuel self transcript = Some chunks ->
  In chunk chunks ->
  TextProcessor.extract_timestamps (Chunk.text chunk) = [] /\
  Chunk.start_timestamp chunk = lit "00:00" /\
  Chunk.end_timestamp chunk = lit "00:00".
Proof.
  intros Hnd Hsome Hin.
  destruct (ChunkMore.chunk_transcript_eq _ _ _ _ Hsome) as (texts & Hsplit & ->).
  pose proof (SplitMore.split_contains _ _ _ _ _ Hsplit) as Hc.
  rewrite List.Forall_forall in Hc.
  rewrite <- list_elem_of_In in Hin.
  apply list_elem_of_lookup in Hin as [i Hi].
  apply ChunkMore.chunk_lookup in Hi as (t & Ht & ->).
  assert (Hin : In t texts)
    by (rewrite <- list_elem_of_In; apply list_elem_of_lookup; exists i; exact Ht).
  assert (He : TextProcessor.extract_timestamps t = []).
  { apply TimestampFacts.extract_nil_no_digits.
    apply (TimestampMore.no_digit_contains _ _ (Hc _ Hin)).
    apply TimestampMore.clean_text_no_digit, Hnd. }
  unfold ChunkingAgent.with_metadata.
  cbn [Chunk.text Chunk.start_timestamp Chunk.end_timestamp].
  rewrite He. repeat split.
Qed.

Lemma chunks_without_digits_get_sentinel_witness :
  no_digit Samples.two_sentences = true /\
  TextProcessor.extract_timestamps Samples.first_sentence = [] /\
  lit "00:00" = lit "00:00" /\ lit "00:00" = lit "00:00".
Proof.
  split; [reflexivity|].
  apply (chunks_without_digits_get_sentinel 5 (ChunkingAgent.init 200 0)
           Samples.two_sentences
           [Chunk.mk 1 Samples.first_sentence (lit "00:00") (lit "00:00") 191;
            Chunk.mk 2 Samples.second_sentence (lit "00:00") (lit "00:00") 100]
           (Chunk.mk 1 Samples.first_sentence (lit "00:00") (lit "00:00") 191));
    [reflexivity | vm_compute; reflexivity | left; reflexivity].
Defined.

(** X12. [format_duration] on an [int] number of seconds below 100 hours
    (negative numbers included, which wrap around the hour): the text is
    MM:SS, five characters, below 3600 seconds and HH:MM:SS, eight
    characters, from 3600 on; it has the shape of a timestamp, and
    [extract_timestamps] reads it back as its one token. *)
Theorem format_duration_is_timestamp (seconds : Z) :
  seconds < 360000 ->
  length (TextProcessor.format_duration seconds)
  = (if seconds <? 3600 then 5%nat else 8%nat) /\
  is_timestamp (TextProcessor.format_duration seconds) = true /\
  TextProcessor.extract_timestamps (TextProcessor.format_duration seconds)
  = [TextProcessor.format_duration seconds].
Proof.
  intros Hs.
  destruct (TimestampMore.format_duration_form seconds Hs)
    as [(Hlt & a & b & d & e & -> & Ha & Hb & Hd & He)
       | (Hge & a & b & d & e & f & g & -> & Ha & Hb & Hd & He & Hf & Hg)].
  - destruct (Z.ltb_spec seconds 3600); [|lia]. split; [reflexivity|]. split.
    + unfold is_timestamp. simpl.
      rewrite Ha, Hb, Hd, He, ?TimestampMore.is_colon.
      destruct (is_char TextProcessor.colon b); reflexivity.
    + rewrite <- (app_nil_r [a; b; TextProcessor.colon; d; e]) at 1.
      rewrite (TimestampFacts.extract_step _ [] [a; b; TextProcessor.colon; d; e]).
      * reflexivity.
      * discriminate.
      * rewrite app_nil_r. apply TimestampMore.match_mmss; assumption.
  - destruct (Z.ltb_spec seconds 3600); [lia|]. split; [reflexivity|]. split.
    + unfold is_timestamp. simpl.
      rewrite Ha, Hb, Hd, He, Hf, Hg, ?TimestampMore.is_colon.
      destruct (is_char TextProcessor.colon b); reflexivity.
    + rewrite <- (app_nil_r [a; b; TextProcessor.colon; d; e; TextProcessor.colon; f; g]) at 1.
      rewrite (TimestampFacts.extract_step _ []
                 [a; b; TextProcessor.colon; d; e; TextProcessor.colon; f; g]).
      * reflexivity.
      * discriminate.
      * rewrite app_nil_r. apply TimestampMore.match_hhmmss; assumption.
Qed.

Lemma format_duration_is_timestamp_witness :
  3725 < 360000 /\
  TextProcessor.format_duration 3725 = lit "01:02:05" /\
  TextProcessor.extract_timestamps (TextProcessor.format_duration 3725)
  = [TextProcessor.format_duration 3725].
Proof.
  split; [lia|]. split; [reflexivity|].
  apply (format_duration_is_timestamp 3725). lia.
Defined.

Module DurationFacts.
Import TextProcessor TimestampMore.

Lemma two_digit_value_format n :
  0 <= n < 100 -> two_digit_value (format_02d n) = n.
Proof.
  intros Hn.
  assert (Hall : forallb (fun k => two_digit_value (format_02d (Z.of_nat k)) =? Z.of_nat k)
                   (seq 0 100) = true) by (vm_compute; reflexivity).
  rewrite forallb_forall in Hall.
  specialize (Hall (Z.to_nat n) ltac:(apply in_seq; lia)).
  rewrite Z2Nat.id in Hall by lia. apply Z.eqb_eq, Hall.
Qed.

(** Reading a formatted duration gives the number of seconds back. *)
Lemma duration_value_format seconds :
  0 <= seconds < 360000 -> duration_value (format_duration seconds) = seconds.
Proof.
  intros Hs. unfold format_duration.
  pose proof (Z.mod_pos_bound seconds 3600 ltac:(lia)) as Hm.
  pose proof (Z.mod_pos_bound seconds 60 ltac:(lia)) as Hsec.
  assert (Hmin : 0 <= seconds mod 3600 / 60 < 100).
  { split; [apply Z.div_pos; lia | apply Z.div_lt_upper_bound; lia]. }
  assert (Hhr : 0 <= seconds / 3600 < 100).
  { split; [apply Z.div_pos; lia | apply Z.div_lt_upper_bound; lia]. }
  pose proof (two_digit_value_format _ Hmin) as Vm.
  pose proof (two_digit_value_format (seconds mod 60) ltac:(lia)) as Vs.
  pose proof (two_digit_value_format _ Hhr) as Vh.
  destruct (format_02d_digits _ Hmin) as (d & e & Em & _).
  destruct (format_02d_digits (seconds mod 60) ltac:(lia)) as (f & g & Es & _).
  destruct (format_02d_digits _ Hhr) as (a & b & Eh & _).
  rewrite Em in *. rewrite Es in *. rewrite Eh in *.
  destruct (Z.gtb_spec (seconds / 3600) 0) as [Hh|Hh];
    cbn [app lit list_ascii_of_string duration_value]; rewrite ?Vm, ?Vs, ?Vh.
  - pose proof (Z.div_mod seconds 3600 ltac:(lia)).
    pose proof (Z.div_mod (seconds mod 3600) 60 ltac:(lia)).
    assert ((seconds mod 3600) mod 60 = seconds mod 60).
    { apply Z.mod_mod_divide. exists 60. reflexivity. }
    lia.
  - assert (seconds / 3600 = 0) by lia.
    pose proof (Z.div_mod seconds 3600 ltac:(lia)).
    pose proof (Z.div_mod (seconds mod 3600) 60 ltac:(lia)).
    assert ((seconds mod 3600) mod 60 = seconds mod 60).
    { apply Z.mod_mod_divide. exists 60. reflexivity. }
    lia.
Qed.

End DurationFacts.

(** X13. [format_duration] loses nothing below 100 hours: two different
    [int] numbers of seconds between 0 and 359999 are formatted to
    different texts. *)
Theorem format_duration_injective (s1 s2 : Z) :
  0 <= s1 < 360000 -> 0 <= s2 < 360000 ->
  TextProcessor.format_duration s1 = TextProcessor.format_duration s2 ->
  s1 = s2.
Proof.
  intros H1 H2 E.
  rewrite <- (DurationFacts.duration_value_format s1 H1).
  rewrite <- (DurationFacts.duration_value_format s2 H2).
  rewrite E. reflexivity.
Qed.

Lemma format_duration_injective_witness :
  0 <= 75 < 360000 /\
  TextProcessor.format_duration 75 = TextProcessor.format_duration (60 + 15) /\
  75 = 60 + 15.
Proof.
  split; [lia|]. split; [reflexivity|].
  apply (format_duration_injective 75 (60 + 15)); [lia | lia | reflexivity].
Defined.

(** ** More on the map and reduce stages *)

Module PipelineFacts.
Section WithProvider.
Import SummarizationAgent SynthesisAgent.
Context {P : Type} `{BaseLLMProvider P}.

(** The accumulator of the loop is only appended to. *)
Lemma for_chunks_acc chunks : forall summaries (p : P),
  for_chunks chunks summaries p
  = (summaries ++ (for_chunks chunks [] p).1, (for_chunks chunks [] p).2).
Proof.
  induction chunks as [|chunk chunks IH]; intros summaries p; simpl.
  - unfold ret. simpl. rewrite app_nil_r. reflexivity.
  - unfold bind. destruct (summarize_chunk chunk p) as [summary p'].
    rewrite IH. rewrite (IH [summary]). simpl. rewrite <- app_assoc. reflexivity.
Qed.

Lemma for_chunks_app a b : forall summaries (p : P),
  for_chunks (a ++ b) summaries p
  = let (ra, p1) := for_chunks a summaries p in for_chunks b ra p1.
Proof.
  induction a as [|chunk a IH]; intros summaries p; simpl; [reflexivity|].
  unfold bind. destruct (summarize_chunk chunk p) as [summary p']. apply IH.
Qed.

Lemma count_successful_eq (l : list ChunkSummary.t) :
  count_successful l = Z.of_nat (count ChunkSummary.success l).
Proof.
  unfold count_successful, count.
  assert (Hgen : forall acc,
             fold_left (fun n s => if ChunkSummary.success s then n + 1 else n) l acc
             = acc + Z.of_nat (length (List.filter ChunkSummary.success l))).
  { induction l as [|s l IH]; intros acc; simpl; [lia|].
    rewrite IH. destruct (ChunkSummary.success s); simpl; lia. }
  apply Hgen.
Qed.

Lemma count_le {A : Type} (f : A -> bool) (l : list A) :
  (count f l <= length l)%nat.
Proof. unfold count. apply List.filter_length_le. Qed.

(** As many successful summaries as calls that returned. *)
Lemma summaries_of_succeeded chunks : forall outcomes,
  length outcomes = length chunks ->
  count ChunkSummary.success (summaries_of chunks outcomes)
  = count (fun r => negb (raised r)) outcomes.
Proof.
  unfold count.
  induction chunks as [|chunk chunks IH]; intros [|r outcomes] Hl;
    simpl in *; try lia; try reflexivity.
  destruct r; simpl; rewrite IH by lia; reflexivity.
Qed.

(** The loop of [synthesize] keeps the blocks of the successful summaries,
    in order. *)
Lemma collect_eq l : forall summaries_text,
  collect l summaries_text
  = summaries_text ++ map block (List.filter ChunkSummary.success l).
Proof.
  induction l as [|s l IH]; intros acc; simpl.
  - rewrite app_nil_r. reflexivity.
  - destruct (ChunkSummary.success s); rewrite IH; [|reflexivity].
    rewrite <- app_assoc. reflexivity.
Qed.

Lemma combined_summaries_eq l :
  combined_summaries l
  = join (lit "
") (map block (List.filter ChunkSummary.success l)).
Proof. unfold combined_summaries. rewrite collect_eq. reflexivity. Qed.

Lemma filter_success_idem (l : list ChunkSummary.t) :
  List.filter ChunkSummary.success (List.filter ChunkSummary.success l)
  = List.filter ChunkSummary.success l.
Proof.
  induction l as [|s l IH]; [reflexivity|]. simpl.
  destruct (ChunkSummary.success s) eqn:E; [|exact IH].
  simpl. rewrite E, IH. reflexivity.
Qed.

Lemma combined_summaries_filter l :
  combined_summaries (List.filter ChunkSummary.success l) = combined_summaries l.
Proof. rewrite !combined_summaries_eq, filter_success_idem. reflexivity. Qed.

Lemma filter_all_failed (l : list ChunkSummary.t) :
  (forall s, In s l -> ChunkSummary.success s = false) ->
  List.filter ChunkSummary.success l = [].
Proof.
  induction l as [|s l IH]; intros Hall; [reflexivity|]. simpl.
  rewrite (Hall s (or_introl eq_refl)). apply IH.
  intros s' Hs'. apply Hall. right. exact Hs'.
Qed.

Lemma summaries_of_all_raised chunks : forall outcomes s,
  forallb raised outcomes = true ->
  In s (summaries_of chunks outcomes) -> ChunkSummary.success s = false.
Proof.
  induction chunks as [|chunk chunks IH]; intros [|r outcomes] s Hall Hin;
    simpl in *; try contradiction.
  apply andb_true_iff in Hall as [Hr Hall].
  destruct Hin as [<- | Hin]; [|exact (IH _ _ Hall Hin)].
  destruct r; [discriminate | reflexivity].
Qed.

End WithProvider.
End PipelineFacts.

(** X14. Batches compose: summarizing [a ++ b] is summarizing [a] and then,
    from the provider state this leaves, summarizing [b]; the summaries are
    those of [a] followed by those of [b]. The calls are made one after the
    other, in the order of the chunks. *)
Theorem summarize_all_chunks_app {P : Type} `{BaseLLMProvider P}
  (p : P) (a b : list Chunk.t) :
  SummarizationAgent.summarize_all_chunks (a ++ b) p
  = let (ra, p1) := SummarizationAgent.summarize_all_chunks a p in
    let (rb, p2) := SummarizationAgent.summarize_all_chunks b p1 in
    (ra ++ rb, p2).
Proof.
  unfold SummarizationAgent.summarize_all_chunks.
  rewrite PipelineFacts.for_chunks_app.
  destruct (SummarizationAgent.for_chunks a [] p) as [ra p1].
  rewrite PipelineFacts.for_chunks_acc.
  destruct (SummarizationAgent.for_chunks b [] p1) as [rb p2]. reflexivity.
Qed.

(** X15. The counts of [create_structured_summary] after the map stage, for
    every provider and every batch: [chunk_count] is the number of chunks,
    [successful_chunks] is the number of chunk calls that returned,
    [0 <= successful_chunks <= chunk_count], the difference is the number of
    calls that raised, and [summary] is the document of [synthesize]; so
    the counts do not depend on whether the synthesis call raises. *)
Theorem structured_summary_counts {P : Type} `{BaseLLMProvider P}
  (p : P) (chunks : list Chunk.t) (video_metadata : gmap string str) :
  let (summaries, p1) := SummarizationAgent.summarize_all_chunks chunks p in
  let result := (SynthesisAgent.create_structured_summary summaries video_metadata p1).1 in
  SynthesisResult.chunk_count result = Z.of_nat (length chunks) /\
  SynthesisResult.successful_chunks result
  = Z.of_nat (count (fun r => negb (raised r))
                (SummarizationAgent.call_outcomes chunks p)) /\
  0 <= SynthesisResult.successful_chunks result <= SynthesisResult.chunk_count result /\
  SynthesisResult.chunk_count result - SynthesisResult.successful_chunks result
  = Z.of_nat (count raised (SummarizationAgent.call_outcomes chunks p)) /\
  SynthesisResult.summary result
  = (SynthesisAgent.synthesize summaries video_metadata p1).1.
Proof.
  pose proof (MapFacts.summarize_all_chunks_eq chunks p) as Heq.
  destruct (SummarizationAgent.summarize_all_chunks chunks p) as [summaries p1].
  cbn [fst] in Heq. cbv zeta.
  unfold SynthesisAgent.create_structured_summary, bind.
  destruct (SynthesisAgent.synthesize summaries video_metadata p1) as [doc p2].
  cbn [fst ret SynthesisResult.chunk_count SynthesisResult.successful_chunks
       SynthesisResult.summary].
  pose proof (MapFacts.call_outcomes_length chunks p) as Hl.
  pose proof (MapFacts.summaries_of_length chunks _ Hl) as Hn.
  pose proof (PipelineFacts.summaries_of_succeeded chunks _ Hl) as Hs.
  pose proof (MapFacts.summaries_of_failed chunks _ Hl) as Hf.
  pose proof (MapFacts.count_split ChunkSummary.success summaries) as Hsplit.
  rewrite PipelineFacts.count_successful_eq. subst summaries.
  rewrite Hn, Hs. rewrite Hs, Hf, Hn in Hsplit.
  repeat split; lia.
Qed.

(** X16. Failed summaries never reach the synthesis: the joined text is the
    blocks of the successful summaries, in order, joined by a newline, so
    the prompt and the fallback document are those of the list without its
    failed entries. *)
Theorem failed_summaries_excluded (chunk_summaries : list ChunkSummary.t)
  (video_metadata : gmap string str) (e : exception) :
  SynthesisAgent.combined_summaries chunk_summaries
  = join (lit "
") (map SynthesisAgent.block (List.filter ChunkSummary.success chunk_summaries)) /\
  SynthesisAgent.user_prompt (List.filter ChunkSummary.success chunk_summaries) video_metadata
  = SynthesisAgent.user_prompt chunk_summaries video_metadata /\
  SynthesisAgent.fallback e (List.filter ChunkSummary.success chunk_summaries)
  = SynthesisAgent.fallback e chunk_summaries.
Proof.
  split; [apply PipelineFacts.combined_summaries_eq|].
  unfold SynthesisAgent.user_prompt, SynthesisAgent.fallback.
  rewrite PipelineFacts.combined_summaries_filter. split; reflexivity.
Qed.

(** X17. Total unavailability of the model: when every chunk call raises
    and the synthesis call raises [e] too, the pipeline still ends with a
    result: [successful_chunks = 0], [chunk_count] is the number of chunks,
    and the document is the heading, the error section with [str(e)] and an
    empty "Chunk Summaries" section. *)
Theorem total_unavailability {P : Type} `{BaseLLMProvider P}
  (p p1 p2 : P) (chunks : list Chunk.t) (summaries : list ChunkSummary.t)
  (video_metadata : gmap string str) (e : exception) :
  forallb raised (SummarizationAgent.call_outcomes chunks p) = true ->
  SummarizationAgent.summarize_all_chunks chunks p = (summaries, p1) ->
  SynthesisAgent.call summaries video_metadata p1 = (Raised e, p2) ->
  let result := (SynthesisAgent.create_structured_summary summaries video_metadata p1).1 in
  SynthesisResult.successful_chunks result = 0 /\
  SynthesisResult.chunk_count result = Z.of_nat (length chunks) /\
  SynthesisResult.summary result
  = lit "# Video Summary

## Error
Failed to synthesize final summary: " ++ str_of e ++ lit "

## Chunk Summaries

".
Proof.
  intros Hall Hmap Hcall. cbv zeta.
  pose proof (MapFacts.summarize_all_chunks_eq chunks p) as Heq.
  rewrite Hmap in Heq. cbn [fst] in Heq.
  pose proof (MapFacts.call_outcomes_length chunks p) as Hl.
  pose proof (MapFacts.summaries_of_length chunks _ Hl) as Hn.
  assert (Hfailed : List.filter ChunkSummary.success summaries = []).
  { apply PipelineFacts.filter_all_failed. intros s Hs. rewrite Heq in Hs.
    exact (PipelineFacts.summaries_of_all_raised _ _ _ Hall Hs). }
  unfold SynthesisAgent.create_structured_summary, SynthesisAgent.synthesize, bind.
  rewrite Hcall.
  cbn [fst ret SynthesisResult.chunk_count SynthesisResult.successful_chunks
       SynthesisResult.summary].
  rewrite PipelineFacts.count_successful_eq. unfold count. rewrite Hfailed.
  split; [reflexivity|]. split; [rewrite Heq, Hn; reflexivity|].
  unfold SynthesisAgent.fallback.
  rewrite PipelineFacts.combined_summaries_eq, Hfailed. simpl join.
  rewrite app_nil_r, <- !app_assoc. reflexivity.
Qed.

Lemma total_unavailability_witness :
  let p := [Raised Scripted.timeout; Raised Scripted.timeout; Raised Scripted.timeout] in
  let chunks := [Scripted.chunk1; Scripted.chunk2] in
  forallb raised (SummarizationAgent.call_outcomes chunks p) = true /\
  SynthesisResult.successful_chunks
    (SynthesisAgent.create_structured_summary
       (SummarizationAgent.summarize_all_chunks chunks p).1 ∅ Scripted.failing).1 = 0 /\
  SynthesisResult.chunk_count
    (SynthesisAgent.create_structured_summary
       (SummarizationAgent.summarize_all_chunks chunks p).1 ∅ Scripted.failing).1 = 2.
Proof.
  intros p chunks. split; [reflexivity|].
  assert (Hmap : SummarizationAgent.summarize_all_chunks chunks p
                 = ((SummarizationAgent.summarize_all_chunks chunks p).1, Scripted.failing))
    by reflexivity.
  assert (Hcall : SynthesisAgent.call (SummarizationAgent.summarize_all_chunks chunks p).1
                    ∅ Scripted.failing = (Raised Scripted.timeout, []))
    by reflexivity.
  destruct (@total_unavailability _ Scripted.provider p Scripted.failing []
              chunks (SummarizationAgent.summarize_all_chunks chunks p).1
              ∅ Scripted.timeout eq_refl Hmap Hcall) as (H0 & Hn & _).
  split; [exact H0 | exact Hn].
Defined.

Module OutputFacts.

(** [strip] gives the empty text exactly for whitespace only. *)
Lemma strip_nil t : strip t = [] <-> forallb is_space t = true.
Proof.
  rewrite <- CleanMore.visible_nil_all_space, <- CleanMore.visible_strip. split.
  - intros ->. reflexivity.
  - intros Hv. destruct (strip t) as [|c r] eqn:E; [reflexivity|].
    exfalso. apply (CleanMore.starts_visible (c :: r)); [discriminate | | exact Hv].
    rewrite <- E. apply CleanMore.strip_starts.
Qed.

End OutputFacts.

(** X18. The text a call returns is not examined: it is stripped and taken
    as it is. [summarize_chunk] marks the chunk as successful whatever the
    text, with an empty [summary] exactly when the text is empty or
    whitespace only; and when the synthesis call returns, the document of
    [synthesize] is the stripped text, empty in exactly the same case. *)
Theorem returned_text_taken_as_is {P : Type} `{BaseLLMProvider P} :
  (forall (p p' : P) (chunk : Chunk.t) (t : str),
      SummarizationAgent.call chunk p = (Returned t, p') ->
      let s := (SummarizationAgent.summarize_chunk chunk p).1 in
      ChunkSummary.success s = true /\
      ChunkSummary.summary s = strip t /\
      (ChunkSummary.summary s = [] <-> forallb is_space t = true)) /\
  (forall (p p' : P) (chunk_summaries : list ChunkSummary.t)
          (video_metadata : gmap string str) (t : str),
      SynthesisAgent.call chunk_summaries video_metadata p = (Returned t, p') ->
      let doc := (SynthesisAgent.synthesize chunk_summaries video_metadata p).1 in
      doc = strip t /\ (doc = [] <-> forallb is_space t = true)).
Proof.
  split.
  - intros p p' chunk t Hcall. cbv zeta.
    rewrite MapFacts.summarize_chunk_eq, Hcall. simpl.
    split; [reflexivity|]. split; [reflexivity | apply OutputFacts.strip_nil].
  - intros p p' l md t Hcall. cbv zeta.
    unfold SynthesisAgent.synthesize, bind. rewrite Hcall. simpl.
    split; [reflexivity | apply OutputFacts.strip_nil].
Qed.

Lemma returned_text_taken_as_is_witness :
  ChunkSummary.success
    (SummarizationAgent.summarize_chunk Scripted.chunk1 [Returned (lit "  ")]).1 = true /\
  ChunkSummary.summary
    (SummarizationAgent.summarize_chunk Scripted.chunk1 [Returned (lit "  ")]).1 = [] /\
  (SynthesisAgent.synthesize [] ∅ [Returned (lit " Done. ")]).1 = lit "Done.".
Proof.
  destruct (@returned_text_taken_as_is _ Scripted.provider) as [Hmap Hreduce].
  destruct (Hmap [Returned (lit "  ")] [] Scripted.chunk1 (lit "  ") eq_refl)
    as (Hs & _ & Hnil).
  destruct (Hreduce [Returned (lit " Done. ")] [] [] ∅ (lit " Done. ") eq_refl)
    as (Hdoc & _).
  split; [exact Hs|]. split; [apply Hnil; reflexivity | exact Hdoc].
Defined.
